(** * NTS tracklist scraper: a shallow embedding of [src/index.ts]
    and, further down, of [src/count.ts]

    The crawl of [index.ts] is embedded as state-passing functions over
    an explicit [World]: the upstream API, the file store, the request
    log and the two mutable objects ([checkpoint], [runningTotalTracks])
    that [main] shares with every call of [processShow].

    Strings.  A JavaScript string is a sequence of UTF-16 code units; a
    Rocq [string] character stands for the code unit of the same number,
    so the development covers the strings whose code units are below
    256 (Latin-1).  On that range the built-ins used by the program
    ([toLowerCase], the [\s] class, [JSON.stringify]) are written out in
    full below. *)

From Stdlib Require Import Ascii String DecimalString.
From stdpp Require Import gmap strings list.

(** ** JavaScript string built-ins *)

Module JS.

Definition code (c : ascii) : nat := nat_of_ascii c.

Fixpoint map_chars (f : ascii → ascii) (s : string) : string :=
  match s with
  | EmptyString => EmptyString
  | String c s' => String (f c) (map_chars f s')
  end.

(** [String.prototype.toLowerCase] on one code unit below 256: the
    letters A..Z and the Latin-1 capitals U+00C0..U+00DE (U+00D7, the
    multiplication sign, excepted) move up by 32. *)
Definition toLowerCase_char (c : ascii) : ascii :=
  let n := code c in
  if ((65 <=? n) && (n <=? 90)) || ((192 <=? n) && (n <=? 222) && negb (n =? 215))
  then ascii_of_nat (n + 32) else c.

Definition toLowerCase (s : string) : string := map_chars toLowerCase_char s.

(** The regular-expression class [\s] below 256: TAB, LF, VT, FF, CR,
    SPACE and NO-BREAK SPACE. *)
Definition is_whitespace (c : ascii) : bool :=
  let n := code c in
  (n =? 9) || (n =? 10) || (n =? 11) || (n =? 12) || (n =? 13) || (n =? 32) || (n =? 160).

Definition slash : ascii := "/"%char.
Definition underscore : ascii := "_"%char.

(** [s.replace(/\s+/g, '_')]: scanning from the left, every maximal
    run of whitespace is one match and is replaced by one underscore.
    [in_run] records that the previous character was whitespace, so the
    run it belongs to has been replaced already. *)
Fixpoint replace_ws_from (in_run : bool) (s : string) : string :=
  match s with
  | EmptyString => EmptyString
  | String c s' =>
      if is_whitespace c
      then (if in_run then replace_ws_from true s'
            else String underscore (replace_ws_from true s'))
      else String c (replace_ws_from false s')
  end.

Definition replace_whitespace_runs (s : string) : string := replace_ws_from false s.

(** [s.replace(/\//g, '_')] *)
Definition replace_slashes (s : string) : string :=
  map_chars (fun c => if Ascii.eqb c slash then underscore else c) s.

(** [hay.includes(needle)] *)
Fixpoint includes (needle hay : string) : bool :=
  String.prefix needle hay ||
  match hay with
  | EmptyString => false
  | String _ hay' => includes needle hay'
  end.

(** [`${n}`] for a non-negative integer [n] *)
Definition Number_toString (n : nat) : string :=
  NilEmpty.string_of_uint (Nat.to_uint n).

(** *** JSON.stringify on strings (QuoteJSONString) *)

Definition dquote : ascii := ascii_of_nat 34.
Definition backslash : ascii := ascii_of_nat 92.

Definition hex_digit (n : nat) : ascii :=
  nth n ["0"; "1"; "2"; "3"; "4"; "5"; "6"; "7"; "8"; "9";
         "a"; "b"; "c"; "d"; "e"; "f"]%char "0"%char.

Definition escape2 (c : ascii) : string := String backslash (String c EmptyString).

Definition quote_char (c : ascii) : string :=
  let n := code c in
  if n =? 8 then escape2 "b"
  else if n =? 9 then escape2 "t"
  else if n =? 10 then escape2 "n"
  else if n =? 12 then escape2 "f"
  else if n =? 13 then escape2 "r"
  else if n =? 34 then escape2 dquote
  else if n =? 92 then escape2 backslash
  else if n <? 32 then
    String backslash (String "u" (String "0" (String "0"
      (String (hex_digit (n / 16)) (String (hex_digit (n mod 16)) EmptyString)))))
  else String c EmptyString.

Fixpoint quote_chars (s : string) : string :=
  match s with
  | EmptyString => EmptyString
  | String c s' => quote_char c +:+ quote_chars s'
  end.

Definition JSON_quote (s : string) : string :=
  String dquote (quote_chars s +:+ String dquote EmptyString).

(** *** JSON.parse on string literals *)

Definition hex_value (c : ascii) : option nat :=
  let n := code c in
  if (48 <=? n) && (n <=? 57) then Some (n - 48)
  else if (97 <=? n) && (n <=? 102) then Some (n - 87)
  else if (65 <=? n) && (n <=? 70) then Some (n - 55)
  else None.

Definition unescape2 (c : ascii) : option ascii :=
  let n := code c in
  if n =? 34 then Some dquote
  else if n =? 92 then Some backslash
  else if n =? 47 then Some slash
  else if n =? 98 then Some (ascii_of_nat 8)
  else if n =? 102 then Some (ascii_of_nat 12)
  else if n =? 110 then Some (ascii_of_nat 10)
  else if n =? 114 then Some (ascii_of_nat 13)
  else if n =? 116 then Some (ascii_of_nat 9)
  else None.

(** The code unit of [\uXXXX]; [None] for a malformed escape and for
    a code unit outside the modelled range. *)
Definition unescape_u (h1 h2 h3 h4 : ascii) : option ascii :=
  a ← hex_value h1; b ← hex_value h2; c ← hex_value h3; d ← hex_value h4;
  let n := ((a * 16 + b) * 16 + c) * 16 + d in
  if n <? 256 then Some (ascii_of_nat n) else None.

Definition cons_char (c : ascii) (r : option (string * string)) : option (string * string) :=
  '(body, rest) ← r; Some (String c body, rest).

(** Reads the characters of a string literal after its opening quote,
    up to and including the closing quote; returns the string denoted
    and the remaining input. *)
Fixpoint parse_string_body (s : string) : option (string * string) :=
  match s with
  | EmptyString => None
  | String c s1 =>
      if Ascii.eqb c dquote then Some (EmptyString, s1)
      else if Ascii.eqb c backslash then
        match s1 with
        | EmptyString => None
        | String e s2 =>
            if Ascii.eqb e "u" then
              match s2 with
              | String h1 (String h2 (String h3 (String h4 s6))) =>
                  match unescape_u h1 h2 h3 h4 with
                  | Some d => cons_char d (parse_string_body s6)
                  | None => None
                  end
              | _ => None
              end
            else
              match unescape2 e with
              | Some d => cons_char d (parse_string_body s2)
              | None => None
              end
        end
      else if code c <? 32 then None
      else cons_char c (parse_string_body s1)
  end.

(** [s] without the prefix [p], when it has it. *)
Fixpoint strip_prefix (p s : string) : option string :=
  match p, s with
  | EmptyString, _ => Some s
  | String a p', String b s' => if Ascii.eqb a b then strip_prefix p' s' else None
  | String _ _, EmptyString => None
  end.

(** *** Set<string>: insertion-ordered, [add] of a member is a no-op *)

Definition Set_add (s : list string) (x : string) : list string :=
  if decide (x ∈ s) then s else s ++ [x].

(** [new Set(xs)] and [xs.forEach(x => s.add(x))] *)
Definition Set_add_all (s : list string) (xs : list string) : list string :=
  foldl Set_add s xs.

End JS.

(** ** Node's [path.join] (POSIX flavour) *)

Module Path.

(** The segments of a path between its ['/'] separators. *)
Fixpoint split (s : string) : list string :=
  match s with
  | EmptyString => [EmptyString]
  | String c s' =>
      if Ascii.eqb c JS.slash then EmptyString :: split s'
      else match split s' with
           | seg :: segs => String c seg :: segs
           | [] => [String c EmptyString]
           end
  end.

(** One step of [normalizeString]: [stack] holds the segments kept so
    far, last one first.  Empty and ["."] segments are dropped; [".."]
    removes the last kept segment, or is kept itself (relative paths
    only) when there is nothing to remove. *)
Definition push_segment (allowAboveRoot : bool) (stack : list string) (seg : string)
  : list string :=
  if decide (seg = "" ∨ seg = ".") then stack
  else if decide (seg = "..") then
    match stack with
    | top :: below =>
        if decide (top = "..") then (if allowAboveRoot then ".." :: stack else stack)
        else below
    | [] => if allowAboveRoot then [".."] else []
    end
  else seg :: stack.

Fixpoint join_segments (segs : list string) : string :=
  match segs with
  | [] => ""
  | [seg] => seg
  | seg :: rest => seg +:+ "/" +:+ join_segments rest
  end.

Definition normalizeString (p : string) (allowAboveRoot : bool) : string :=
  join_segments (rev (foldl (push_segment allowAboveRoot) [] (split p))).

Definition starts_with_slash (p : string) : bool :=
  match p with String c _ => Ascii.eqb c JS.slash | EmptyString => false end.

Fixpoint ends_with_slash (p : string) : bool :=
  match p with
  | EmptyString => false
  | String c EmptyString => Ascii.eqb c JS.slash
  | String _ p' => ends_with_slash p'
  end.

Definition normalize (p : string) : string :=
  if decide (p = "") then "."
  else
    let isAbsolute := starts_with_slash p in
    let trailingSeparator := ends_with_slash p in
    let q := normalizeString p (negb isAbsolute) in
    if decide (q = "") then
      (if isAbsolute then "/" else if trailingSeparator then "./" else ".")
    else
      (if isAbsolute then "/" else "") +:+ q +:+ (if trailingSeparator then "/" else "").

(** [path.join(a, b)]: the non-empty arguments joined by ['/'], then
    normalised; ["."] when both are empty. *)
Definition join (a b : string) : string :=
  if decide (a = "") then (if decide (b = "") then "." else normalize b)
  else if decide (b = "") then normalize a
  else normalize (a +:+ "/" +:+ b).

End Path.

(** ** Data model *)

Record Show := mkShow { show_name : string; show_path : string }.

Record Link := mkLink { rel : string; href : string }.

Record Episode := mkEpisode { episode_name : string; links : list Link }.

(** A [Track] object at run time: its two fields, and the order in which
    its two properties were created, which [JSON.stringify] follows.
    Objects built by [fetchTracklist] are [ArtistTitle]; an object read
    back from a file has the order of the file's text. *)
Inductive KeyOrder := ArtistTitle | TitleArtist.

Record Track := mkTrack { artist : string; title : string; key_order : KeyOrder }.

(** Track equality of the data model: field for field. *)
Definition same_fields (a b : Track) : Prop :=
  artist a = artist b ∧ title a = title b.

(** One entry of a tracklist response: the two fields the program reads
    and whatever else the upstream sends along. *)
Record RawTrack := mkRawTrack {
  raw_artist : string;
  raw_title : string;
  raw_extra : list (string * string)
}.

Record Mixtape := mkMixtape { mixtape_alias : string; credits : list Show }.

Global Instance KeyOrder_eq_dec : EqDecision KeyOrder.
Proof. solve_decision. Defined.
Global Instance Track_eq_dec : EqDecision Track.
Proof. solve_decision. Defined.

(** *** The fingerprint: [JSON.stringify(track)] and its inverse *)

Definition colon : string := ":".
Definition comma : string := ",".

Definition JSON_member (key value : string) : string :=
  JS.JSON_quote key +:+ colon +:+ JS.JSON_quote value.

Definition JSON_object2 (k1 v1 k2 v2 : string) : string :=
  "{" +:+ JSON_member k1 v1 +:+ comma +:+ JSON_member k2 v2 +:+ "}".

Definition JSON_stringify (t : Track) : string :=
  match key_order t with
  | ArtistTitle => JSON_object2 "artist" (artist t) "title" (title t)
  | TitleArtist => JSON_object2 "title" (title t) "artist" (artist t)
  end.

Definition parse_member (key : string) (s : string) : option (string * string) :=
  s' ← JS.strip_prefix (JS.JSON_quote key +:+ colon +:+ String JS.dquote EmptyString) s;
  JS.parse_string_body s'.

Definition parse_object2 (k1 k2 : string) (s : string) : option (string * string) :=
  s1 ← JS.strip_prefix "{" s;
  '(v1, s2) ← parse_member k1 s1;
  s3 ← JS.strip_prefix comma s2;
  '(v2, s4) ← parse_member k2 s3;
  if decide (s4 = "}") then Some (v1, v2) else None.

(** [JSON.parse] on the texts [JSON.stringify] gives for a [Track]: a
    two-member object, both values string literals, without white
    space.  The program applies [JSON.parse] to members of its
    fingerprint sets only. *)
Definition JSON_parse (s : string) : option Track :=
  match parse_object2 "artist" "title" s with
  | Some (a, t) => Some (mkTrack a t ArtistTitle)
  | None =>
      match parse_object2 "title" "artist" s with
      | Some (t, a) => Some (mkTrack a t TitleArtist)
      | None => None
      end
  end.

(** ** The world the program runs in *)

(** What [JSON.parse] makes of a file's text, at the types the program
    declares for it. *)
Inductive JsonValue :=
  | JTracks (l : list Track)   (* an array of track objects *)
  | JOther.                    (* any value that has no [map] method *)

(** A file of the output tree is kept as what [JSON.parse] returns on
    its text: [fs.writeFile(p, JSON.stringify(v, null, 2))] stores
    [Json v]. *)
Inductive FileData :=
  | Unparseable                (* text that [JSON.parse] rejects *)
  | Json (v : JsonValue).

Global Instance JsonValue_eq_dec : EqDecision JsonValue.
Proof. solve_decision. Defined.
Global Instance FileData_eq_dec : EqDecision FileData.
Proof. solve_decision. Defined.

(** The surroundings, fixed during a run: the upstream API as a function
    of the requested URL ([None]: no list of results can be had from
    it, because the request fails or because the body of the reply has
    no [results]), and which paths the file system lets the program
    write and create. *)
Record Env := mkEnv {
  api_episodes : string → option (list Episode);
  api_tracklist : string → option (list RawTrack);
  writable : string → bool;
  mkdir_ok : string → bool
}.

Record World := mkWorld {
  env : Env;
  requests : list string;                     (* URLs requested, in order *)
  files : gmap string FileData;               (* the output tree *)
  checkpoint_json : option (gmap string bool);(* checkpoint.json, when it holds a JSON
                                                 object; None: absent or unparseable *)
  checkpoint : gmap string bool;              (* the object [main] shares with [processShow] *)
  runningTotalTracks : nat                    (* runningTotalTracks.count *)
}.

Definition set_requests (r : list string) (w : World) : World :=
  mkWorld (env w) r (files w) (checkpoint_json w) (checkpoint w) (runningTotalTracks w).
Definition set_files (f : gmap string FileData) (w : World) : World :=
  mkWorld (env w) (requests w) f (checkpoint_json w) (checkpoint w) (runningTotalTracks w).
Definition set_checkpoint_json (c : option (gmap string bool)) (w : World) : World :=
  mkWorld (env w) (requests w) (files w) c (checkpoint w) (runningTotalTracks w).
Definition set_checkpoint (c : gmap string bool) (w : World) : World :=
  mkWorld (env w) (requests w) (files w) (checkpoint_json w) c (runningTotalTracks w).
Definition set_runningTotalTracks (n : nat) (w : World) : World :=
  mkWorld (env w) (requests w) (files w) (checkpoint_json w) (checkpoint w) n.

Inductive Error :=
  | RequestFailed (url : string)   (* no results from [url]: the rejection of
                                      [axios.get], or the TypeError met on a
                                      reply without [results] *)
  | TypeError
  | SyntaxError
  | ENOENT (path : string)
  | WriteFailed (path : string).

(** *** The monad of the program: state, exceptions, and running on *)

Inductive Outcome (A : Type) :=
  | Returns (a : A) (w : World)
  | Throws (e : Error) (w : World)
  | Diverges.                      (* the fuel of a [while (true)] ran out *)
Arguments Returns {A} a w.
Arguments Throws {A} e w.
Arguments Diverges {A}.

Definition M (A : Type) : Type := World → Outcome A.

Global Instance M_ret : MRet M := λ A a w, Returns a w.
Global Instance M_bind : MBind M := λ A B f m w,
  match m w with
  | Returns a w' => f a w'
  | Throws e w' => Throws e w'
  | Diverges => Diverges
  end.

Definition throw {A} (e : Error) : M A := λ w, Throws e w.

(** [try { m } catch (error) { handler(error) }] *)
Definition try_catch {A} (m : M A) (handler : Error → M A) : M A := λ w,
  match m w with
  | Throws e w' => handler e w'
  | r => r
  end.

Definition get {A} (proj : World → A) : M A := λ w, Returns (proj w) w.
Definition modify (f : World → World) : M unit := λ w, Returns tt (f w).

(** *** Effects *)

(** [(await axios.get(url)).data.results], read as [Episode[]] *)
Definition axios_get_episodes (url : string) : M (list Episode) := λ w,
  let w' := set_requests (requests w ++ [url]) w in
  match api_episodes (env w) url with
  | Some results => Returns results w'
  | None => Throws (RequestFailed url) w'
  end.

(** [(await axios.get(url)).data.results], read as the entries of a tracklist *)
Definition axios_get_tracklist (url : string) : M (list RawTrack) := λ w,
  let w' := set_requests (requests w ++ [url]) w in
  match api_tracklist (env w) url with
  | Some results => Returns results w'
  | None => Throws (RequestFailed url) w'
  end.

Definition fs_readFile (p : string) : M FileData := λ w,
  match files w !! p with
  | Some d => Returns d w
  | None => Throws (ENOENT p) w
  end.

Definition fs_writeFile (p : string) (d : FileData) : M unit := λ w,
  if writable (env w) p then Returns tt (set_files (<[p := d]> (files w)) w)
  else Throws (WriteFailed p) w.

Definition fs_mkdir (p : string) : M unit := λ w,
  if mkdir_ok (env w) p then Returns tt w else Throws (WriteFailed p) w.

Definition JSON_parse_file (d : FileData) : M JsonValue :=
  match d with
  | Json v => mret v
  | Unparseable => throw SyntaxError
  end.

(** [fs.writeFile('checkpoint.json', JSON.stringify(checkpoint, null, 2))] *)
Definition write_checkpoint_json : M unit := λ w,
  if writable (env w) "checkpoint.json"
  then Returns tt (set_checkpoint_json (Some (checkpoint w)) w)
  else Throws (WriteFailed "checkpoint.json") w.

(** *** Property access on the checkpoint object *)

(** The properties every object inherits from [Object.prototype]; read
    through [checkpoint[name]] they are functions (or the prototype
    itself), hence truthy. *)
Definition Object_prototype_keys : list string :=
  ["constructor"; "__defineGetter__"; "__defineSetter__"; "hasOwnProperty";
   "__lookupGetter__"; "__lookupSetter__"; "isPrototypeOf";
   "propertyIsEnumerable"; "toString"; "valueOf"; "__proto__"; "toLocaleString"].

(** The truth value of [checkpoint[name]]: the own property when there
    is one, else the inherited one. *)
Definition checkpoint_truthy (ck : gmap string bool) (name : string) : bool :=
  match ck !! name with
  | Some b => b
  | None => bool_decide (name ∈ Object_prototype_keys)
  end.

(** [checkpoint[name] = true]; assigning to an inherited [__proto__]
    runs its setter, which ignores a boolean. *)
Definition checkpoint_assign (ck : gmap string bool) (name : string) : gmap string bool :=
  if decide (name = "__proto__" ∧ ck !! name = None) then ck
  else <[name := true]> ck.

(** ** NTSScraperService *)

Definition baseUrl : string := "https://www.nts.live/api/v2".
Definition limit : nat := 12.

Definition episodes_url (showPath : string) (offset : nat) : string :=
  baseUrl +:+ showPath +:+ "/episodes?offset=" +:+ JS.Number_toString offset
          +:+ "&limit=" +:+ JS.Number_toString limit.

Definition guest_episode (showPath : string) : Episode :=
  mkEpisode "" [mkLink "tracklist" (baseUrl +:+ showPath +:+ "/tracklist")].

(** The [while (true)] loop of [fetchAllEpisodes]; [fuel] bounds the
    number of iterations the model follows. *)
Fixpoint fetch_pages (fuel : nat) (showPath : string) (offset : nat)
    (allEpisodes : list Episode) : M (list Episode) :=
  match fuel with
  | 0 => λ _, Diverges
  | S fuel' =>
      episodes ← axios_get_episodes (episodes_url showPath offset);
      if length episodes =? 0 then mret allEpisodes
      else fetch_pages fuel' showPath (offset + limit) (allEpisodes ++ episodes)
  end.

Definition fetchAllEpisodes (fuel : nat) (showPath : string) (isGuestShow : bool)
  : M (list Episode) :=
  if isGuestShow then mret [guest_episode showPath]
  else fetch_pages fuel showPath 0 [].

Definition project_track (track : RawTrack) : Track :=
  mkTrack (raw_artist track) (raw_title track) ArtistTitle.

Definition fetchTracklist (tracklistUrl : string) : M (list Track) :=
  results ← axios_get_tracklist tracklistUrl;
  mret (project_track <$> results).

(** ** ShowProcessor *)

(** [Array.from(set).map(track => JSON.parse(track))] *)
Fixpoint parse_all (fingerprints : list string) : M (list Track) :=
  match fingerprints with
  | [] => mret []
  | fp :: rest =>
      match JSON_parse fp with
      | Some t => ts ← parse_all rest; mret (t :: ts)
      | None => throw SyntaxError
      end
  end.

Definition sanitizedShowName (showName : string) : string :=
  JS.replace_slashes (JS.replace_whitespace_runs (JS.toLowerCase showName)).

Definition fileName (showName : string) : string :=
  sanitizedShowName showName +:+ "_tracklist.json".

Definition filePath (showName outputDir : string) : string :=
  Path.join outputDir (fileName showName).

(** The inner [try] of [saveTracklist]: a missing or unparseable file
    leaves [existingTracks] at its initial [[]]. *)
Definition read_existing (p : string) : M JsonValue :=
  try_catch (existingData ← fs_readFile p; JSON_parse_file existingData)
            (λ _, mret (JTracks [])).

(** [existingTracks.map(track => JSON.stringify(track))] *)
Definition stringify_existing (existingTracks : JsonValue) : M (list string) :=
  match existingTracks with
  | JTracks l => mret (JSON_stringify <$> l)
  | JOther => throw TypeError
  end.

Definition saveTracklist (showName : string) (tracks : list Track) (outputDir : string)
  : M unit :=
  let p := filePath showName outputDir in
  existingTracks ← read_existing p;
  existingKeys ← stringify_existing existingTracks;
  let allTracks := JS.Set_add_all (JS.Set_add_all [] existingKeys) (JSON_stringify <$> tracks) in
  deduplicatedTracks ← parse_all allTracks;
  fs_writeFile p (Json (JTracks deduplicatedTracks)).

(** [episode.links.find(link => link.rel === 'tracklist')?.href] *)
Definition tracklistUrl (episode : Episode) : option string :=
  href <$> List.find (λ link, bool_decide (rel link = "tracklist")) (links episode).

(** One turn of the loop over the episodes; [if (tracklistUrl)] holds
    for a string that is not empty. *)
Definition visit_episode (allTracks : list string) (episode : Episode) : M (list string) :=
  match tracklistUrl episode with
  | Some url =>
      if decide (url = "") then mret allTracks
      else
        tracklist ← fetchTracklist url;
        mret (JS.Set_add_all allTracks (JSON_stringify <$> tracklist))
  | None => mret allTracks
  end.

Fixpoint visit_episodes (allTracks : list string) (episodes : list Episode)
  : M (list string) :=
  match episodes with
  | [] => mret allTracks
  | episode :: rest =>
      allTracks' ← visit_episode allTracks episode;
      visit_episodes allTracks' rest
  end.

(** [show.path.includes('/guests/')] *)
Definition isGuestShow (show : Show) : bool := JS.includes "/guests/" (show_path show).

(** Lines 73 to 88: the tracks of this run, deduplicated. *)
Definition fetch_show_tracks (fuel : nat) (show : Show) : M (list Track) :=
  episodes ← fetchAllEpisodes fuel (show_path show) (isGuestShow show);
  allTracks ← visit_episodes [] episodes;
  parse_all allTracks.

(** The body of the [try] of [processShow]. *)
Definition processShow_try (fuel : nat) (show : Show) (outputDir : string) : M unit :=
  deduplicatedTracks ← fetch_show_tracks fuel show;
  saveTracklist (show_name show) deduplicatedTracks outputDir;;
  let trackCount := length deduplicatedTracks in
  modify (λ w, set_runningTotalTracks (runningTotalTracks w + trackCount) w);;
  modify (λ w, set_checkpoint (checkpoint_assign (checkpoint w) (show_name show)) w);;
  write_checkpoint_json.

Definition processShow (fuel : nat) (show : Show) (outputDir : string) : M unit :=
  try_catch (processShow_try fuel show outputDir) (λ _, mret tt).

(** ** main *)

Definition outputDir : string := "nts_tracklists".

(** The [try] around the reading of [checkpoint.json]: the object the
    file holds, the empty object when the file is absent or cannot be
    parsed.  (A file holding JSON that is no object, such as [null], is
    not among the worlds of the model.) *)
Definition load_checkpoint : M unit :=
  modify (λ w, set_checkpoint (default ∅ (checkpoint_json w)) w).

Fixpoint main_credits (fuel : nat) (mixtapeFolder : string) (cs : list Show) : M unit :=
  match cs with
  | [] => mret tt
  | credit :: rest =>
      ck ← get checkpoint;
      (if negb (checkpoint_truthy ck (show_name credit))
       then processShow fuel credit mixtapeFolder
       else mret tt);;
      main_credits fuel mixtapeFolder rest
  end.

Fixpoint main_mixtapes (fuel : nat) (ms : list Mixtape) : M unit :=
  match ms with
  | [] => mret tt
  | mixtape :: rest =>
      let mixtapeFolder := Path.join outputDir (mixtape_alias mixtape) in
      fs_mkdir mixtapeFolder;;
      main_credits fuel mixtapeFolder (credits mixtape);;
      main_mixtapes fuel rest
  end.

(** [inputData] is [mixtapes.json] parsed; console output, and the
    progress counters [showIndex] and [totalShows] that feed nothing
    else, are left out, as is the pacing ([rateLimiter], [setTimeout]). *)
Definition main (fuel : nat) (inputData : list Mixtape) : M unit :=
  modify (set_runningTotalTracks 0);;
  load_checkpoint;;
  main_mixtapes fuel inputData.

(** ** Notions the properties are stated with *)

(** The world a finished computation leaves; [None] while it runs on. *)
Definition final {A} (o : Outcome A) : option World :=
  match o with
  | Returns _ w => Some w
  | Throws _ w => Some w
  | Diverges => None
  end.

(** The tracks a show's output file holds before it is rewritten: none
    when the file is absent or unparseable. *)
Definition existing_tracks (w : World) (p : string) : list Track :=
  match files w !! p with
  | Some (Json (JTracks l)) => l
  | _ => []
  end.

(** The DedupStore of the specification, on track objects: [add]
    inserts a track that is not there yet, [merge] adds the existing
    tracks and then the new ones to an empty store. *)
Definition dedup_add (store : list Track) (t : Track) : list Track :=
  if decide (t ∈ store) then store else store ++ [t].

Definition merge (existingTracks newTracks : list Track) : list Track :=
  foldl dedup_add (foldl dedup_add [] existingTracks) newTracks.

(** [out] is the union of [existing] and [fetched] without repetition,
    tracks compared as objects (fields and property order). *)
Definition dedup_union (out existing fetched : list Track) : Prop :=
  NoDup out ∧ ∀ t, t ∈ out ↔ t ∈ existing ∨ t ∈ fetched.

(** The same with tracks compared field for field: no two positions of
    [out] hold tracks with the same fields, and [out] covers exactly the
    tracks of [existing] and [fetched]. *)
Definition dedup_union_by_fields (out existing fetched : list Track) : Prop :=
  (∀ i j a b, out !! i = Some a → out !! j = Some b → same_fields a b → i = j) ∧
  (∀ t, t ∈ existing ∨ t ∈ fetched → ∃ t', t' ∈ out ∧ same_fields t t') ∧
  (∀ t', t' ∈ out → t' ∈ existing ∨ t' ∈ fetched).

(** [needle] occurs in [hay]. *)
Definition is_substring (needle hay : string) : Prop :=
  ∃ before after, hay = before +:+ needle +:+ after.

(** The pages the upstream serves for a show: [pages] are the non-empty
    pages at offsets 0, 12, 24, ... and the next page is empty. *)
Definition pages_served (e : Env) (showPath : string) (pages : list (list Episode)) : Prop :=
  (∀ k page, pages !! k = Some page →
     api_episodes e (episodes_url showPath (k * limit)) = Some page ∧ page ≠ []) ∧
  api_episodes e (episodes_url showPath (length pages * limit)) = Some [].

(** The URLs of the first [n] page requests. *)
Definition page_urls (showPath : string) (n : nat) : list string :=
  (λ k, episodes_url showPath (k * limit)) <$> seq 0 n.

(** Sanitization in one pass: lowercase; a run of whitespace, wherever
    it stands, becomes a single underscore; a slash becomes an
    underscore. *)
Fixpoint sanitize_from (in_run : bool) (s : string) : string :=
  match s with
  | EmptyString => EmptyString
  | String c s' =>
      if JS.is_whitespace c
      then (if in_run then sanitize_from true s'
            else String JS.underscore (sanitize_from true s'))
      else String (if Ascii.eqb c JS.slash then JS.underscore else JS.toLowerCase_char c)
                  (sanitize_from false s')
  end.

Definition sanitize_spec (s : string) : string := sanitize_from false s.

(** A run of whitespace, and what bounds it: the text before does not
    end in whitespace, the text after does not begin with it (either
    may be empty: a leading run, a trailing run). *)
Definition whitespace_run (run : string) : Prop :=
  run ≠ "" ∧ ∀ c, c ∈ list_ascii_of_string run → JS.is_whitespace c = true.

Definition ends_outside_whitespace (s : string) : Prop :=
  ∀ c, last (list_ascii_of_string s) = Some c → JS.is_whitespace c = false.

Definition starts_outside_whitespace (s : string) : Prop :=
  ∀ c s', s = String c s' → JS.is_whitespace c = false.

(** Whether the one-pass sanitization is inside a run of whitespace
    once it has read [s], having been so or not before. *)
Fixpoint in_run_after (in_run : bool) (s : string) : bool :=
  match s with
  | EmptyString => in_run
  | String c s' => in_run_after (JS.is_whitespace c) s'
  end.

(** A directory name that [path.join] leaves as it is: not empty,
    neither ["."] nor [".."], and without a separator. *)
Definition plain_segment (s : string) : Prop :=
  s ≠ "" ∧ s ≠ "." ∧ s ≠ ".." ∧ JS.includes "/" s = false.

(** Every name [ck] treats as done, [ck'] treats as done. *)
Definition done_included (ck ck' : gmap string bool) : Prop :=
  ∀ name, checkpoint_truthy ck name = true → checkpoint_truthy ck' name = true.

(** ** Closed forms used in the proofs *)

(** The world [saveTracklist] leaves when its write goes through. *)
Definition saved_world (showName outputDir : string) (tracks : list Track) (w : World) : World :=
  let p := filePath showName outputDir in
  set_files (<[p := Json (JTracks (merge (existing_tracks w p) tracks))]> (files w)) w.

(** The world after lines 91 to 97: counter, flag, and the checkpoint
    file when it can be written. *)
Definition checkpointed_world (showName : string) (trackCount : nat) (w : World) : World :=
  let w' := set_checkpoint (checkpoint_assign (checkpoint w) showName)
              (set_runningTotalTracks (runningTotalTracks w + trackCount) w) in
  if writable (env w) "checkpoint.json"
  then set_checkpoint_json (Some (checkpoint w')) w' else w'.

(** The world [processShow] leaves once the tracks are fetched. *)
Definition after_fetch (show : Show) (outputDir : string) (fetched : list Track) (w : World)
  : World :=
  let p := filePath (show_name show) outputDir in
  if decide (files w !! p = Some (Json JOther)) then w
  else if writable (env w) p
       then checkpointed_world (show_name show) (length fetched)
              (saved_world (show_name show) outputDir fetched w)
       else w.

(** Two computations agree when, started in worlds with the same
    surroundings, they end alike (same value or same exception) and each
    has only added the same requests to its log, unless one runs on. *)
Definition agree {A} (m1 m2 : M A) : Prop :=
  ∀ w1 w2, env w1 = env w2 →
    match m1 w1, m2 w2 with
    | Diverges, _ | _, Diverges => True
    | Returns a1 w1', Returns a2 w2' =>
        a1 = a2 ∧ ∃ urls, w1' = set_requests (requests w1 ++ urls) w1
                        ∧ w2' = set_requests (requests w2 ++ urls) w2
    | Throws e1 w1', Throws e2 w2' =>
        e1 = e2 ∧ ∃ urls, w1' = set_requests (requests w1 ++ urls) w1
                        ∧ w2' = set_requests (requests w2 ++ urls) w2
    | _, _ => False
    end.

(** The output tree only grows: a file changes by being rewritten as a
    duplicate-free array that keeps the tracks it had. *)
Definition grows (F F' : gmap string FileData) : Prop :=
  ∀ q, F' !! q = F !! q ∨
       ∃ out, F' !! q = Some (Json (JTracks out)) ∧ NoDup out ∧
              F !! q ≠ Some (Json JOther) ∧
              ∀ l, F !! q = Some (Json (JTracks l)) → l ⊆ out.

(** Processing [show] again cannot change the tree [F]: whenever its
    tracks can be fetched and its file written, the file holds them
    already (or cannot be merged into). *)
Definition settled (e : Env) (F : gmap string FileData) (outputDir : string) (show : Show)
  : Prop :=
  ∀ fuel w fetched w',
    env w = e → fetch_show_tracks fuel show w = Returns fetched w' →
    writable e (filePath (show_name show) outputDir) = true →
    F !! filePath (show_name show) outputDir = Some (Json JOther) ∨
    ∃ l, F !! filePath (show_name show) outputDir = Some (Json (JTracks l))
         ∧ NoDup l ∧ fetched ⊆ l.

(** The tracks an episode contributes: those of the tracklist its first
    [tracklist] link points at, none without such a link. *)
Definition served_tracks (e : Env) (episode : Episode) : list Track :=
  match tracklistUrl episode with
  | Some url =>
      if decide (url = "") then []
      else project_track <$> default [] (api_tracklist e url)
  | None => []
  end.

(** A name without a path separator. *)
Definition slash_free (s : string) : Prop := JS.includes "/" s = false.

(** The pages from page number [k] on. *)
Definition pages_served_from (e : Env) (showPath : string) (k : nat)
    (pages : list (list Episode)) : Prop :=
  (∀ i page, pages !! i = Some page →
     api_episodes e (episodes_url showPath ((k + i) * limit)) = Some page ∧ page ≠ []) ∧
  api_episodes e (episodes_url showPath ((k + length pages) * limit)) = Some [].

Definition page_urls_from (showPath : string) (k n : nat) : list string :=
  (λ i, episodes_url showPath (i * limit)) <$> seq k n.

(** The checkpoint file never forgets a show that was done when the
    run started. *)
Definition checkpoint_kept (ck0 : gmap string bool) (w : World) : Prop :=
  done_included ck0 (checkpoint w) ∧
  done_included ck0 (default ∅ (checkpoint_json w)).

(** ** Sample data for the concrete runs *)

Module Sample.

Definition show_foo : Show := mkShow "Foo" "/shows/foo".
Definition show_bar : Show := mkShow "Bar" "/shows/bar".

Definition episode1 : Episode :=
  mkEpisode "first" [mkLink "self" "/e/1"; mkLink "tracklist" "/e/1/tracklist"].
Definition episode2 : Episode :=
  mkEpisode "second" [mkLink "tracklist" "/e/2/tracklist"].
Definition episode_without_tracklist : Episode :=
  mkEpisode "third" [mkLink "self" "/e/3"].

Definition track_AT : Track := mkTrack "A" "T" ArtistTitle.
Definition track_AT_spaced : Track := mkTrack "A " "T" ArtistTitle.
Definition track_AT_title_first : Track := mkTrack "A" "T" TitleArtist.
Definition track_BU : Track := mkTrack "B" "U" ArtistTitle.

(** Show Foo has two episodes on one page; the track A/T is on both
    tracklists.  Show Bar cannot be fetched. *)
Definition env_foo : Env := {|
  api_episodes url :=
    if decide (url = episodes_url "/shows/foo" 0) then Some [episode1; episode2]
    else if decide (url = episodes_url "/shows/foo" 12) then Some []
    else None;
  api_tracklist url :=
    if decide (url = "/e/1/tracklist")
    then Some [mkRawTrack "A" "T" [("uid", "1")]; mkRawTrack "A " "T" []]
    else if decide (url = "/e/2/tracklist") then Some [mkRawTrack "A" "T" []]
    else None;
  writable _ := true;
  mkdir_ok _ := true
|}.

Definition full_page : list Episode := replicate 12 episode2.

(** Full pages at offsets 0 and 12, an empty page at offset 24. *)
Definition env_two_pages : Env := {|
  api_episodes url :=
    if decide (url = episodes_url "/shows/foo" 0) then Some full_page
    else if decide (url = episodes_url "/shows/foo" 12) then Some full_page
    else if decide (url = episodes_url "/shows/foo" 24) then Some []
    else None;
  api_tracklist _ := Some [];
  writable _ := true;
  mkdir_ok _ := true
|}.

Definition catalog : list Mixtape :=
  [mkMixtape "mix" [show_bar; show_foo]].

Definition folder : string := "nts_tracklists/mix".
Definition foo_json : string := "nts_tracklists/mix/foo_tracklist.json".

Definition fresh (e : Env) : World := mkWorld e [] ∅ None ∅ 0.

(** Foo's file exists and holds A/T written title first. *)
Definition world_title_first : World :=
  mkWorld env_foo [] {[ foo_json := Json (JTracks [track_AT_title_first]) ]} None ∅ 0.

(** Foo's file exists and holds a track that is not fetched any more. *)
Definition world_older_track : World :=
  mkWorld env_foo [] {[ foo_json := Json (JTracks [track_BU]) ]} None ∅ 0.

(** The checkpoint file marks Foo done. *)
Definition world_foo_done : World :=
  mkWorld env_foo [] ∅ (Some {[ "Foo" := true ]}) ∅ 0.

(** The world the [try] of [processShow] leaves for show Foo. *)
Definition foo_processed (w : World) : World :=
  default w (final (processShow_try 2 show_foo folder w)).

(** The world a run of [main] over the catalog leaves. *)
Definition run (w : World) : World := default w (final (main 2 catalog w)).

End Sample.

(** ** Further notions *)

(** The flag of [name] is set, in memory and in [checkpoint.json]. *)
Definition flagged (name : string) (w : World) : Prop :=
  checkpoint w !! name = Some true ∧
  default ∅ (checkpoint_json w) !! name = Some true.

(** A character a sanitized name can hold: in lower case, neither
    whitespace nor a slash. *)
Definition clean_char (c : ascii) : Prop :=
  JS.is_whitespace c = false ∧ c ≠ JS.slash ∧ JS.toLowerCase_char c = c.

(** ** Further sample data *)

Module Scenario.

Definition show_guest : Show := mkShow "Guest" "/shows/guests/somebody".
Definition show_constructor : Show := mkShow "constructor" "/shows/constructor".

(** As [Sample.env_foo], with a guest tracklist, and a file system that
    refuses to write [checkpoint.json]. *)
Definition env_readonly_checkpoint : Env := {|
  api_episodes := api_episodes Sample.env_foo;
  api_tracklist url :=
    if decide (url = baseUrl +:+ "/shows/guests/somebody" +:+ "/tracklist")
    then Some [mkRawTrack "G" "H" []; mkRawTrack "G" "H" []]
    else api_tracklist Sample.env_foo url;
  writable p := negb (bool_decide (p = "checkpoint.json"));
  mkdir_ok _ := true
|}.

(** A full first page, and a second page that cannot be fetched. *)
Definition env_second_page_fails : Env := {|
  api_episodes url :=
    if decide (url = episodes_url "/shows/foo" 0) then Some Sample.full_page else None;
  api_tracklist _ := Some [];
  writable _ := true;
  mkdir_ok _ := true
|}.

(** An upstream that has one more episode at every offset. *)
Definition env_endless : Env := {|
  api_episodes _ := Some [Sample.episode2];
  api_tracklist _ := Some [];
  writable _ := true;
  mkdir_ok _ := true
|}.

(** No folder can be created. *)
Definition env_no_mkdir : Env := {|
  api_episodes := api_episodes Sample.env_foo;
  api_tracklist := api_tracklist Sample.env_foo;
  writable _ := true;
  mkdir_ok _ := false
|}.

(** Foo's file holds JSON that is not an array. *)
Definition world_not_an_array : World :=
  mkWorld Sample.env_foo [] {[ Sample.foo_json := Json JOther ]} None ∅ 0.

(** Both shows of the catalog are marked done. *)
Definition world_all_done : World :=
  mkWorld Sample.env_foo [] ∅ (Some {[ "Foo" := true; "Bar" := true ]}) ∅ 0.

(** The worlds on the way of show Foo through [processShow], from a
    fresh world: its tracks fetched, then its file written. *)
Definition foo_fetched (e : Env) : World :=
  set_requests [episodes_url "/shows/foo" 0; episodes_url "/shows/foo" 12;
                "/e/1/tracklist"; "/e/2/tracklist"] (Sample.fresh e).

Definition foo_saved (e : Env) : World :=
  set_files {[ Sample.foo_json :=
                 Json (JTracks [Sample.track_AT; Sample.track_AT_spaced]) ]}
    (foo_fetched e).

End Scenario.

(** * The counting utility: a shallow embedding of [src/count.ts] *)

Module Count.

Local Set Warnings "-register-all".

(** [s.endsWith(suffix)]: [suffix] is one of the tails of [s]. *)
Fixpoint endsWith (suffix s : string) : bool :=
  if decide (s = suffix) then true
  else match s with
       | EmptyString => false
       | String _ s' => endsWith suffix s'
       end.

(** [s] without its last [String.length suffix] characters. *)
Definition drop_suffix (suffix s : string) : string :=
  String.substring 0 (String.length s - String.length suffix) s.

(** Node's [path.basename(p, ext)] (POSIX flavour), for a path [p] that
    does not end in a separator and an extension without separator,
    as [count.ts] calls it: the last component of [p], without [ext]
    when it ends in [ext] and is more than [ext]; the empty string when
    the path as a whole is [ext]. *)
Definition basename (p ext : string) : string :=
  if decide (p = ext) then ""
  else
    let component := default "" (last (Path.split p)) in
    if endsWith ext component && negb (bool_decide (component = ext))
    then drop_suffix ext component
    else component.

(** What [fs.readdir(dir, { withFileTypes: true })] lists, with what
    lies behind each entry: a regular file and what [JSON.parse] makes
    of its text, a directory and its own entries, or something that is
    neither (a symbolic link, a socket). *)
Inductive Dirent :=
  | DFile (name : string) (content : FileData)
  | DDir (name : string) (entries : list Dirent)
  | DOther (name : string).

Definition dirent_name (entry : Dirent) : string :=
  match entry with
  | DFile name _ | DDir name _ | DOther name => name
  end.

(** An entry of [showCounts]. *)
Record ShowCount := mkShowCount { total : nat; deduplicated : nat }.

(** The three variables that [traverseDirectory] closes over. *)
Record Tally := mkTally {
  totalTracks : nat;
  allTracks : list string;
  showCounts : gmap string ShowCount
}.

Definition empty_tally : Tally := mkTally 0 [] ∅.

(** How a traversal ends.  A file named [__proto__.json] makes
    [showCounts[showName]] the prototype that every object of the
    program shares, and the counts are written there; the model does
    not follow the program beyond that point and stops with
    [Outside]. *)
Inductive Result (A : Type) :=
  | Done (a : A)
  | Thrown (e : Error)
  | Outside (showName : string).
Arguments Done {A} a.
Arguments Thrown {A} e.
Arguments Outside {A} showName.

(** Lines 23 to 39, for the file at [fullPath].  Under a name that
    objects inherit from [Object.prototype] ([constructor.json],
    [toString.json], ...) [showCounts[showName]] is the inherited
    function: it is truthy, so no entry is created, and the two counts
    of the show become properties of that function; [showCounts] itself
    stays as it is. *)
Definition count_file (fullPath : string) (content : FileData) (t : Tally) : Result Tally :=
  match content with
  | Unparseable => Thrown SyntaxError
  | Json JOther => Thrown TypeError
  | Json (JTracks tracks) =>
      let showName := basename fullPath ".json" in
      if decide (showName = "__proto__") then Outside showName
      else
        let before := default (mkShowCount 0 0) (showCounts t !! showName) in
        let trackStrings := JSON_stringify <$> tracks in
        let showTrackSet := JS.Set_add_all [] trackStrings in
        Done (mkTally
                (totalTracks t + length tracks)
                (JS.Set_add_all (allTracks t) trackStrings)
                (if decide (showName ∈ Object_prototype_keys) then showCounts t
                 else <[showName := mkShowCount (total before + length tracks)
                                                 (length showTrackSet)]> (showCounts t)))
  end.

(** [traverseDirectory], on the entries [readdir] has listed for
    [currentPath]. *)
Fixpoint visit_entry (currentPath : string) (entry : Dirent) (t : Tally) {struct entry}
  : Result Tally :=
  let fullPath := Path.join currentPath (dirent_name entry) in
  match entry with
  | DDir _ entries =>
      (fix visit_all (es : list Dirent) (t : Tally) {struct es} : Result Tally :=
         match es with
         | [] => Done t
         | e :: es' =>
             match visit_entry fullPath e t with
             | Done t' => visit_all es' t'
             | Thrown err => Thrown err
             | Outside n => Outside n
             end
         end) entries t
  | DFile name content =>
      if endsWith ".json" name then count_file fullPath content t else Done t
  | DOther _ => Done t
  end.

Fixpoint traverseDirectory (currentPath : string) (entries : list Dirent) (t : Tally)
  : Result Tally :=
  match entries with
  | [] => Done t
  | entry :: rest =>
      match visit_entry currentPath entry t with
      | Done t' => traverseDirectory currentPath rest t'
      | Thrown err => Thrown err
      | Outside n => Outside n
      end
  end.

(** The value the function resolves to. *)
Record Counts := mkCounts {
  res_totalTracks : nat;
  res_deduplicatedTracks : nat;
  res_showCounts : gmap string ShowCount
}.

(** [root] is what [readdir] lists for [directory]; [None] when it
    cannot be listed (no such directory). *)
Definition countAndDeduplicateTracksInDirectory (directory : string)
    (root : option (list Dirent)) : Result Counts :=
  match root with
  | None => Thrown (ENOENT directory)
  | Some entries =>
      match traverseDirectory directory entries empty_tally with
      | Done t => Done (mkCounts (totalTracks t) (length (allTracks t)) (showCounts t))
      | Thrown err => Thrown err
      | Outside n => Outside n
      end
  end.

(** ** Notions the properties are stated with *)

(** The [.json] files below [currentPath], in the order they are
    visited, each with its full path. *)
Fixpoint json_files_of (currentPath : string) (entry : Dirent) {struct entry}
  : list (string * FileData) :=
  let fullPath := Path.join currentPath (dirent_name entry) in
  match entry with
  | DDir _ entries =>
      (fix all (es : list Dirent) : list (string * FileData) :=
         match es with
         | [] => []
         | e :: es' => json_files_of fullPath e ++ all es'
         end) entries
  | DFile name content => if endsWith ".json" name then [(fullPath, content)] else []
  | DOther _ => []
  end.

Fixpoint json_files (currentPath : string) (entries : list Dirent)
  : list (string * FileData) :=
  match entries with
  | [] => []
  | entry :: rest => json_files_of currentPath entry ++ json_files currentPath rest
  end.

(** [count_file] over a list of files, first to last. *)
Fixpoint tally_files (fs : list (string * FileData)) (t : Tally) : Result Tally :=
  match fs with
  | [] => Done t
  | f :: rest =>
      match count_file f.1 f.2 t with
      | Done t' => tally_files rest t'
      | Thrown err => Thrown err
      | Outside n => Outside n
      end
  end.

(** The tracks of a file that holds an array of tracks. *)
Definition tracks_of (content : FileData) : list Track :=
  match content with
  | Json (JTracks l) => l
  | _ => []
  end.

Definition is_track_array (content : FileData) : Prop :=
  ∃ l, content = Json (JTracks l).

(** The files that count under the name [showName]. *)
Definition files_named (showName : string) (fs : list (string * FileData))
  : list (string * FileData) :=
  filter (λ f, basename f.1 ".json" = showName) fs.

(** The number of different tracks of a list. *)
Definition distinct (l : list Track) : nat := length (merge [] l).

(** The number of tracks of a list of files, and all their tracks. *)
Definition tracks_in (fs : list (string * FileData)) : list Track :=
  fs ≫= (λ f, tracks_of f.2).

(** A file that is counted: an array of tracks, in a file that is not
    [__proto__.json]. *)
Definition countable_file (f : string * FileData) : Prop :=
  is_track_array f.2 ∧ basename f.1 ".json" ≠ "__proto__".

End Count.

(** A tree for the concrete runs: the folder of one mixtape with two
    shows, a second folder where the first show's file name comes
    again, and entries that are no track files. *)
Module Tree.

Definition foo_tracks : list Track := [Sample.track_AT; Sample.track_AT_spaced].
Definition bar_tracks : list Track := [Sample.track_AT; Sample.track_BU; Sample.track_AT].

Definition nts_tracklists : list Count.Dirent :=
  [Count.DDir "mix"
     [Count.DFile "foo_tracklist.json" (Json (JTracks foo_tracks));
      Count.DFile "notes.txt" Unparseable;
      Count.DFile "bar_tracklist.json" (Json (JTracks bar_tracks))];
   Count.DOther "latest";
   Count.DDir "other" [Count.DFile "foo_tracklist.json" (Json (JTracks [Sample.track_BU]))]].

(** What the count of [nts_tracklists] comes to. *)
Definition counted : Count.Counts :=
  Count.mkCounts 6 3 {[ "foo_tracklist" := Count.mkShowCount 3 1;
                        "bar_tracklist" := Count.mkShowCount 3 2 ]}.

(** A tree with a file named after an inherited property, and what its
    count comes to: the tracks of that file are in the totals, and no
    entry of [showCounts] stands for it. *)
Definition with_constructor : list Count.Dirent :=
  [Count.DDir "mix"
     [Count.DFile "constructor.json" (Json (JTracks bar_tracks));
      Count.DFile "foo_tracklist.json" (Json (JTracks foo_tracks))]].

Definition counted_with_constructor : Count.Counts :=
  Count.mkCounts 5 3 {[ "foo_tracklist" := Count.mkShowCount 2 2 ]}.

End Tree.

(** * Proofs *)

Lemma string_app_cons c s t : String c s +:+ t = String c (s +:+ t).
Proof. reflexivity. Qed.

Lemma string_app_empty_l t : "" +:+ t = t.
Proof. reflexivity. Qed.

Lemma string_app_empty_r s : s +:+ "" = s.
Proof. induction s as [|c s IH]; [done|]. by rewrite string_app_cons, IH. Qed.

Lemma string_app_assoc s t u : (s +:+ t) +:+ u = s +:+ (t +:+ u).
Proof. induction s as [|c s IH]; [done|]. by rewrite !string_app_cons, IH. Qed.

Lemma parse_quote_char c tail :
  JS.parse_string_body (JS.quote_char c +:+ tail)
  = JS.cons_char c (JS.parse_string_body tail).
Proof. destruct c as [[][][][][][][][]]; reflexivity. Qed.

Lemma parse_quote_chars s rest :
  JS.parse_string_body (JS.quote_chars s +:+ String JS.dquote rest) = Some (s, rest).
Proof.
  induction s as [|c s IH]; [done|].
  cbn [JS.quote_chars]. rewrite string_app_assoc, parse_quote_char, IH. done.
Qed.

Lemma strip_prefix_app p s : JS.strip_prefix p (p +:+ s) = Some s.
Proof.
  induction p as [|c p IH]; [done|].
  rewrite string_app_cons. cbn [JS.strip_prefix]. by rewrite Ascii.eqb_refl.
Qed.

Lemma parse_member_JSON_member key v rest :
  parse_member key (JSON_member key v +:+ rest) = Some (v, rest).
Proof.
  unfold parse_member, JSON_member.
  replace ((JS.JSON_quote key +:+ colon +:+ JS.JSON_quote v) +:+ rest)
    with ((JS.JSON_quote key +:+ colon +:+ String JS.dquote EmptyString)
          +:+ (JS.quote_chars v +:+ String JS.dquote rest)).
  - rewrite strip_prefix_app. simpl. apply parse_quote_chars.
  - unfold JS.JSON_quote, colon. by rewrite !string_app_assoc, ?string_app_cons, ?string_app_assoc.
Qed.

Lemma parse_object2_JSON_object2 k1 v1 k2 v2 :
  parse_object2 k1 k2 (JSON_object2 k1 v1 k2 v2) = Some (v1, v2).
Proof.
  unfold parse_object2, JSON_object2.
  rewrite strip_prefix_app. simpl.
  rewrite parse_member_JSON_member. simpl.
  rewrite string_app_empty_l, parse_member_JSON_member. simpl.
  done.
Qed.

Lemma parse_object2_wrong_key v1 v2 :
  parse_object2 "artist" "title" (JSON_object2 "title" v1 "artist" v2) = None.
Proof. reflexivity. Qed.

Lemma JSON_parse_stringify t : JSON_parse (JSON_stringify t) = Some t.
Proof.
  destruct t as [a t []]; unfold JSON_parse, JSON_stringify;
    cbn [key_order artist title].
  - by rewrite parse_object2_JSON_object2.
  - by rewrite parse_object2_wrong_key, parse_object2_JSON_object2.
Qed.

Global Instance JSON_stringify_inj : Inj (=) (=) JSON_stringify.
Proof.
  intros a b Hab. apply (f_equal JSON_parse) in Hab.
  rewrite !JSON_parse_stringify in Hab. congruence.
Qed.

(** ** The DedupStore *)

Lemma elem_of_dedup_add store t x : x ∈ dedup_add store t ↔ x ∈ store ∨ x = t.
Proof.
  unfold dedup_add. case_decide as Hin.
  - split; [auto|]. intros [?| ->]; done.
  - rewrite elem_of_app, list_elem_of_singleton. done.
Qed.

Lemma NoDup_dedup_add store t : NoDup store → NoDup (dedup_add store t).
Proof.
  intros Hnd. unfold dedup_add. case_decide as Hin; [done|].
  apply NoDup_app. split_and!; [done| |apply NoDup_singleton].
  intros x Hx ->%list_elem_of_singleton. done.
Qed.

Lemma elem_of_foldl_dedup_add xs store x :
  x ∈ foldl dedup_add store xs ↔ x ∈ store ∨ x ∈ xs.
Proof.
  revert store. induction xs as [|t xs IH]; intros store; simpl.
  - rewrite elem_of_nil. tauto.
  - rewrite IH, elem_of_dedup_add, elem_of_cons. tauto.
Qed.

Lemma NoDup_foldl_dedup_add xs store :
  NoDup store → NoDup (foldl dedup_add store xs).
Proof.
  revert store. induction xs as [|t xs IH]; intros store Hnd; simpl; [done|].
  by apply IH, NoDup_dedup_add.
Qed.

Lemma foldl_dedup_add_absorb xs store :
  xs ⊆ store → foldl dedup_add store xs = store.
Proof.
  revert store. induction xs as [|t xs IH]; intros store Hsub; simpl; [done|].
  assert (t ∈ store) as Hin by (apply Hsub; left).
  unfold dedup_add at 2. rewrite decide_True by done.
  apply IH. intros x Hx. apply Hsub. by right.
Qed.

Lemma foldl_dedup_add_fresh xs store :
  NoDup (store ++ xs) → foldl dedup_add store xs = store ++ xs.
Proof.
  revert store. induction xs as [|t xs IH]; intros store Hnd; simpl.
  - by rewrite app_nil_r.
  - assert (t ∉ store) as Hnin.
    { apply NoDup_app in Hnd as (_ & Hdisj & _). intros Hin.
      apply (Hdisj t Hin). left. }
    unfold dedup_add at 2. rewrite decide_False by done.
    rewrite IH; rewrite <- app_assoc; done.
Qed.

Lemma length_foldl_dedup_add xs store :
  length store ≤ length (foldl dedup_add store xs).
Proof.
  revert store. induction xs as [|t xs IH]; intros store; simpl; [done|].
  etrans; [|apply IH]. unfold dedup_add. case_decide; [done|].
  rewrite length_app. lia.
Qed.

Lemma merge_dedup_union existing fetched :
  dedup_union (merge existing fetched) existing fetched.
Proof.
  unfold dedup_union, merge. split.
  - apply NoDup_foldl_dedup_add, NoDup_foldl_dedup_add, NoDup_nil_2.
  - intros t. rewrite !elem_of_foldl_dedup_add, elem_of_nil. tauto.
Qed.

Lemma merge_settled l fetched :
  NoDup l → fetched ⊆ l → merge l fetched = l.
Proof.
  intros Hnd Hsub. unfold merge.
  rewrite (foldl_dedup_add_fresh l []) by done.
  by apply foldl_dedup_add_absorb.
Qed.

(** ** Fingerprint sets are DedupStores seen through [JSON.stringify] *)

Lemma Set_add_stringify store t :
  JS.Set_add (JSON_stringify <$> store) (JSON_stringify t)
  = JSON_stringify <$> dedup_add store t.
Proof.
  unfold JS.Set_add, dedup_add.
  destruct (decide (t ∈ store)) as [Hin|Hnin].
  - rewrite decide_True; [done|]. by apply list_elem_of_fmap_inj; [apply _|].
  - rewrite decide_False.
    + by rewrite fmap_app.
    + intros Hin. apply Hnin. by apply (list_elem_of_fmap_inj JSON_stringify).
Qed.

Lemma Set_add_all_stringify xs store :
  JS.Set_add_all (JSON_stringify <$> store) (JSON_stringify <$> xs)
  = JSON_stringify <$> foldl dedup_add store xs.
Proof.
  unfold JS.Set_add_all.
  revert store. induction xs as [|t xs IH]; intros store; simpl; [done|].
  by rewrite Set_add_stringify, IH.
Qed.

Lemma parse_all_stringify l w : parse_all (JSON_stringify <$> l) w = Returns l w.
Proof.
  revert w. induction l as [|t l IH]; intros w; simpl; [done|].
  rewrite JSON_parse_stringify. unfold mbind, M_bind. by rewrite IH.
Qed.

Ltac munfold :=
  unfold mbind, M_bind, mret, M_ret, throw, try_catch, get, modify in *.

Lemma set_requests_id w : set_requests (requests w ++ []) w = w.
Proof. destruct w. unfold set_requests. simpl. by rewrite app_nil_r. Qed.

(** ** [saveTracklist] *)

Lemma read_existing_outcome p w :
  read_existing p w =
  Returns (match files w !! p with Some (Json v) => v | _ => JTracks [] end) w.
Proof.
  unfold read_existing, fs_readFile, JSON_parse_file. munfold.
  destruct (files w !! p) as [[|v]|]; done.
Qed.

Lemma parse_merged l tracks w :
  parse_all (JS.Set_add_all (JS.Set_add_all [] (JSON_stringify <$> l))
                            (JSON_stringify <$> tracks)) w
  = Returns (merge l tracks) w.
Proof.
  change [] with (JSON_stringify <$> @nil Track) at 1.
  rewrite !Set_add_all_stringify. apply parse_all_stringify.
Qed.

Lemma saveTracklist_outcome showName tracks dir w :
  saveTracklist showName tracks dir w =
  if decide (files w !! filePath showName dir = Some (Json JOther)) then Throws TypeError w
  else if writable (env w) (filePath showName dir)
       then Returns tt (saved_world showName dir tracks w)
       else Throws (WriteFailed (filePath showName dir)) w.
Proof.
  unfold saveTracklist. unfold mbind at 1 2 3. unfold M_bind.
  rewrite read_existing_outcome.
  unfold saved_world, existing_tracks in *.
  destruct (files w !! filePath showName dir) as [[|[l|]]|] eqn:Hf; simpl;
    unfold mret, M_ret, fs_writeFile;
    try change (JS.Set_add_all [] (JSON_stringify <$> tracks))
      with (JS.Set_add_all (JS.Set_add_all [] (JSON_stringify <$> []))
                           (JSON_stringify <$> tracks));
    rewrite ?parse_merged; done.
Qed.

Lemma processShow_outcome fuel show dir w :
  processShow fuel show dir w =
  match fetch_show_tracks fuel show w with
  | Returns fetched w1 => Returns tt (after_fetch show dir fetched w1)
  | Throws _ w1 => Returns tt w1
  | Diverges => Diverges
  end.
Proof.
  unfold processShow, processShow_try, try_catch.
  unfold mbind at 1 2 3 4. unfold M_bind.
  destruct (fetch_show_tracks fuel show w) as [fetched w1|e w1|]; [|done..].
  rewrite saveTracklist_outcome. unfold after_fetch.
  case_decide; [done|].
  destruct (writable (env w1) (filePath (show_name show) dir)); [|done].
  unfold modify, write_checkpoint_json, checkpointed_world. simpl.
  destruct (writable _ "checkpoint.json"); done.
Qed.

(** ** Computations that touch the request log only *)

Lemma agree_ret {A} (a : A) : agree (mret a) (mret a).
Proof.
  intros w1 w2 _. unfold mret, M_ret. split; [done|].
  exists []. by rewrite !set_requests_id.
Qed.

Lemma agree_throw {A} e : agree (@throw A e) (throw e).
Proof.
  intros w1 w2 _. unfold throw. split; [done|].
  exists []. by rewrite !set_requests_id.
Qed.

Lemma agree_bind {A B} (m1 m2 : M A) (k1 k2 : A → M B) :
  agree m1 m2 → (∀ a, agree (k1 a) (k2 a)) → agree (m1 ≫= k1) (m2 ≫= k2).
Proof.
  intros Hm Hk w1 w2 He. specialize (Hm w1 w2 He).
  unfold mbind, M_bind.
  destruct (m1 w1) as [a1 w1'|e1 w1'|], (m2 w2) as [a2 w2'|e2 w2'|]; try done.
  - destruct Hm as [<- (urls & -> & ->)].
    specialize (Hk a1 (set_requests (requests w1 ++ urls) w1)
                      (set_requests (requests w2 ++ urls) w2) He).
    destruct (k1 a1 (set_requests (requests w1 ++ urls) w1)) as [b1 v1|e1 v1|],
             (k2 a1 (set_requests (requests w2 ++ urls) w2)) as [b2 v2|e2 v2|];
      try done;
      destruct Hk as [<- (urls' & -> & ->)]; (split; [done|]);
      exists (urls ++ urls'); simpl; by rewrite !app_assoc.
  - destruct (k1 a1 w1'); done.
Qed.

Lemma agree_axios_get_episodes url :
  agree (axios_get_episodes url) (axios_get_episodes url).
Proof.
  intros w1 w2 He. unfold axios_get_episodes. rewrite He.
  destruct (api_episodes (env w2) url); (split; [done|]); by exists [url].
Qed.

Lemma agree_axios_get_tracklist url :
  agree (axios_get_tracklist url) (axios_get_tracklist url).
Proof.
  intros w1 w2 He. unfold axios_get_tracklist. rewrite He.
  destruct (api_tracklist (env w2) url); (split; [done|]); by exists [url].
Qed.

Lemma agree_fetch_pages fuel1 fuel2 showPath offset allEpisodes :
  agree (fetch_pages fuel1 showPath offset allEpisodes)
        (fetch_pages fuel2 showPath offset allEpisodes).
Proof.
  revert fuel2 offset allEpisodes.
  induction fuel1 as [|fuel1 IH]; intros fuel2 offset allEpisodes.
  { intros w1 w2 _. done. }
  destruct fuel2 as [|fuel2].
  { intros w1 w2 _.
    by destruct (fetch_pages (S fuel1) showPath offset allEpisodes w1). }
  cbn [fetch_pages]. apply agree_bind; [apply agree_axios_get_episodes|].
  intros episodes. destruct (length episodes =? 0); [apply agree_ret|apply IH].
Qed.

Lemma agree_fetchAllEpisodes fuel1 fuel2 showPath guest :
  agree (fetchAllEpisodes fuel1 showPath guest) (fetchAllEpisodes fuel2 showPath guest).
Proof.
  unfold fetchAllEpisodes. destruct guest; [apply agree_ret|apply agree_fetch_pages].
Qed.

Lemma agree_fetchTracklist url : agree (fetchTracklist url) (fetchTracklist url).
Proof.
  unfold fetchTracklist. apply agree_bind; [apply agree_axios_get_tracklist|].
  intros results. apply agree_ret.
Qed.

Lemma agree_visit_episode allTracks episode :
  agree (visit_episode allTracks episode) (visit_episode allTracks episode).
Proof.
  unfold visit_episode. destruct (tracklistUrl episode) as [url|]; [|apply agree_ret].
  case_decide; [apply agree_ret|].
  apply agree_bind; [apply agree_fetchTracklist|]. intros tracklist. apply agree_ret.
Qed.

Lemma agree_visit_episodes episodes allTracks :
  agree (visit_episodes allTracks episodes) (visit_episodes allTracks episodes).
Proof.
  revert allTracks. induction episodes as [|episode rest IH]; intros allTracks.
  - apply agree_ret.
  - cbn [visit_episodes]. apply agree_bind; [apply agree_visit_episode|]. apply IH.
Qed.

Lemma agree_parse_all fingerprints :
  agree (parse_all fingerprints) (parse_all fingerprints).
Proof.
  induction fingerprints as [|fp rest IH]; [apply agree_ret|].
  cbn [parse_all]. destruct (JSON_parse fp); [|apply agree_throw].
  apply agree_bind; [apply IH|]. intros ts. apply agree_ret.
Qed.

Lemma agree_fetch_show_tracks fuel1 fuel2 show :
  agree (fetch_show_tracks fuel1 show) (fetch_show_tracks fuel2 show).
Proof.
  unfold fetch_show_tracks.
  apply agree_bind; [apply agree_fetchAllEpisodes|]. intros episodes.
  apply agree_bind; [apply agree_visit_episodes|]. intros allTracks.
  apply agree_parse_all.
Qed.

(** What the agreement gives for one run, and for two. *)

Lemma fetch_show_tracks_frame fuel show w :
  match fetch_show_tracks fuel show w with
  | Returns _ w' | Throws _ w' => ∃ urls, w' = set_requests (requests w ++ urls) w
  | Diverges => True
  end.
Proof.
  pose proof (agree_fetch_show_tracks fuel fuel show w w eq_refl) as H.
  destruct (fetch_show_tracks fuel show w); [| |done];
    destruct H as (_ & urls & -> & _); by exists urls.
Qed.

Lemma fetch_show_tracks_again fuel1 fuel2 show w1 w2 fetched w1' :
  env w1 = env w2 →
  fetch_show_tracks fuel1 show w1 = Returns fetched w1' →
  match fetch_show_tracks fuel2 show w2 with
  | Returns fetched2 _ => fetched2 = fetched
  | Throws _ _ => False
  | Diverges => True
  end.
Proof.
  intros He H1. pose proof (agree_fetch_show_tracks fuel1 fuel2 show w1 w2 He) as H.
  rewrite H1 in H. destruct (fetch_show_tracks fuel2 show w2); [|done..].
  by destruct H as [-> _].
Qed.

Lemma fetch_show_tracks_fails_again fuel1 fuel2 show w1 w2 e w1' :
  env w1 = env w2 →
  fetch_show_tracks fuel1 show w1 = Throws e w1' →
  match fetch_show_tracks fuel2 show w2 with
  | Returns _ _ => False
  | _ => True
  end.
Proof.
  intros He H1. pose proof (agree_fetch_show_tracks fuel1 fuel2 show w1 w2 He) as H.
  rewrite H1 in H. by destruct (fetch_show_tracks fuel2 show w2).
Qed.

(** ** The output tree only grows *)

Lemma grows_refl F : grows F F.
Proof. intros q. by left. Qed.

Lemma grows_trans F1 F2 F3 : grows F1 F2 → grows F2 F3 → grows F1 F3.
Proof.
  intros H12 H23 q.
  destruct (H23 q) as [Heq|(out3 & Hq3 & Hnd3 & Hno2 & Hsub3)].
  { rewrite Heq. apply H12. }
  destruct (H12 q) as [Heq|(out2 & Hq2 & Hnd2 & Hno1 & Hsub2)].
  { right. exists out3. rewrite <- Heq. done. }
  right. exists out3. split_and!; [done..|].
  intros l Hl. etrans; [by apply Hsub2|by apply Hsub3].
Qed.

Lemma grows_insert_merge F p fetched :
  F !! p ≠ Some (Json JOther) →
  grows F (<[p := Json (JTracks (merge match F !! p with
                                       | Some (Json (JTracks l)) => l
                                       | _ => []
                                       end fetched))]> F).
Proof.
  intros Hno q. destruct (decide (q = p)) as [->|Hne].
  - right. eexists. rewrite lookup_insert_eq. split_and!; [done| |done|].
    + apply merge_dedup_union.
    + intros l ->. intros t Ht. apply merge_dedup_union. by left.
  - left. by rewrite lookup_insert_ne.
Qed.

Lemma settled_grows e F F' dir show :
  settled e F dir show → grows F F' → settled e F' dir show.
Proof.
  intros Hs Hg fuel w fetched w' He Hfetch Hw.
  destruct (Hg (filePath (show_name show) dir)) as [Heq|(out & Hq & Hnd & Hno & Hsub)].
  { rewrite Heq. by eapply Hs. }
  destruct (Hs fuel w fetched w' He Hfetch Hw) as [?|(l & Hl & _ & Hin)]; [done|].
  right. exists out. split_and!; [done..|]. etrans; [done|by apply Hsub].
Qed.

(** ** The checkpoint object *)

Lemma checkpoint_truthy_assign ck name other :
  checkpoint_truthy (checkpoint_assign ck name) other
  = checkpoint_truthy ck other || bool_decide (other = name).
Proof.
  unfold checkpoint_assign, checkpoint_truthy.
  destruct (decide (other = name)) as [->|Hne].
  - rewrite (bool_decide_eq_true_2 (name = name)), orb_true_r by done.
    destruct (decide (name = "__proto__" ∧ ck !! name = None)) as [[-> ->]|?].
    + by vm_compute.
    + by rewrite lookup_insert_eq.
  - rewrite (bool_decide_eq_false_2 (other = name)), orb_false_r by done.
    destruct (decide (name = "__proto__" ∧ ck !! name = None)); [done|].
    by rewrite lookup_insert_ne.
Qed.

Lemma done_included_refl ck : done_included ck ck.
Proof. by intros name. Qed.

Lemma done_included_trans ck1 ck2 ck3 :
  done_included ck1 ck2 → done_included ck2 ck3 → done_included ck1 ck3.
Proof. intros H12 H23 name ?. by apply H23, H12. Qed.

Lemma done_included_assign ck name : done_included ck (checkpoint_assign ck name).
Proof. intros other H. by rewrite checkpoint_truthy_assign, H. Qed.

Lemma done_included_assign_both ck ck' name :
  done_included ck ck' →
  done_included (checkpoint_assign ck name) (checkpoint_assign ck' name).
Proof.
  intros Hinc other. rewrite !checkpoint_truthy_assign.
  intros [H| ->]%orb_true_iff; [by rewrite (Hinc _ H)|by rewrite orb_true_r].
Qed.

Lemma done_included_assigned ck ck' name :
  done_included ck ck' → checkpoint_truthy ck' name = true →
  done_included (checkpoint_assign ck name) ck'.
Proof.
  intros Hinc Hdone other. rewrite checkpoint_truthy_assign.
  intros [H|Heq]%orb_true_iff; [by apply Hinc|].
  apply bool_decide_eq_true in Heq. by subst.
Qed.

Lemma checkpoint_assign_marked ck name other :
  ck !! other = Some true → checkpoint_assign ck name !! other = Some true.
Proof.
  intros H. unfold checkpoint_assign. case_decide; [done|].
  destruct (decide (name = other)) as [->|?].
  - by rewrite lookup_insert_eq.
  - by rewrite lookup_insert_ne.
Qed.

(** ** One call of [processShow] *)

Lemma after_fetch_cases show dir fetched w :
  (after_fetch show dir fetched w = w ∧
   (files w !! filePath (show_name show) dir = Some (Json JOther) ∨
    writable (env w) (filePath (show_name show) dir) = false)) ∨
  (files w !! filePath (show_name show) dir ≠ Some (Json JOther) ∧
   writable (env w) (filePath (show_name show) dir) = true ∧
   after_fetch show dir fetched w
   = checkpointed_world (show_name show) (length fetched)
       (saved_world (show_name show) dir fetched w)).
Proof.
  unfold after_fetch. case_decide; [by left; auto|].
  destruct (writable _ _); [by right|by left; auto].
Qed.

Lemma env_checkpointed_world name n w : env (checkpointed_world name n w) = env w.
Proof. unfold checkpointed_world. by destruct (writable _ _). Qed.

Lemma files_checkpointed_world name n w : files (checkpointed_world name n w) = files w.
Proof. unfold checkpointed_world. by destruct (writable _ _). Qed.

Lemma checkpoint_checkpointed_world name n w :
  checkpoint (checkpointed_world name n w) = checkpoint_assign (checkpoint w) name.
Proof. unfold checkpointed_world. by destruct (writable _ _). Qed.

Lemma total_checkpointed_world name n w :
  runningTotalTracks (checkpointed_world name n w) = runningTotalTracks w + n.
Proof. unfold checkpointed_world. by destruct (writable _ _). Qed.

Lemma checkpoint_json_checkpointed_world name n w :
  checkpoint_json (checkpointed_world name n w) = checkpoint_json w ∨
  checkpoint_json (checkpointed_world name n w)
  = Some (checkpoint (checkpointed_world name n w)).
Proof. unfold checkpointed_world. destruct (writable _ _); [by right|by left]. Qed.

Lemma env_after_fetch show dir fetched w : env (after_fetch show dir fetched w) = env w.
Proof.
  destruct (after_fetch_cases show dir fetched w) as [[-> _]|(_ & _ & ->)]; [done|].
  by rewrite env_checkpointed_world.
Qed.

Lemma processShow_not_throws fuel show dir w e w' :
  processShow fuel show dir w ≠ Throws e w'.
Proof.
  rewrite processShow_outcome. by destruct (fetch_show_tracks fuel show w).
Qed.

(** What one call may change. *)
Lemma processShow_step fuel show dir w w' :
  processShow fuel show dir w = Returns tt w' →
  env w' = env w ∧ grows (files w) (files w') ∧
  (checkpoint w' = checkpoint w ∨
   checkpoint w' = checkpoint_assign (checkpoint w) (show_name show)) ∧
  (checkpoint_json w' = checkpoint_json w ∨ checkpoint_json w' = Some (checkpoint w')).
Proof.
  rewrite processShow_outcome.
  pose proof (fetch_show_tracks_frame fuel show w) as Hframe.
  destruct (fetch_show_tracks fuel show w) as [fetched w1|e w1|]; [| |done].
  - destruct Hframe as [urls ->]. intros [= <-].
    destruct (after_fetch_cases show dir fetched
                (set_requests (requests w ++ urls) w)) as [[-> _]|(Hno & Hw & ->)].
    { split_and!; [done|apply grows_refl|by left|by left]. }
    split_and!.
    + by rewrite env_checkpointed_world.
    + rewrite files_checkpointed_world. by apply grows_insert_merge.
    + right. by rewrite checkpoint_checkpointed_world.
    + apply (checkpoint_json_checkpointed_world _ _
               (saved_world (show_name show) dir fetched
                  (set_requests (requests w ++ urls) w))).
  - destruct Hframe as [urls ->]. intros [= <-].
    split_and!; [done|apply grows_refl|by left|by left].
Qed.

(** A show whose file is settled is processed without a change to the
    tree. *)
Lemma processShow_settled fuel show dir w w' :
  settled (env w) (files w) dir show →
  processShow fuel show dir w = Returns tt w' → files w' = files w.
Proof.
  intros Hs. rewrite processShow_outcome.
  pose proof (fetch_show_tracks_frame fuel show w) as Hframe.
  destruct (fetch_show_tracks fuel show w) as [fetched w1|e w1|] eqn:Hfetch; [| |done].
  - destruct Hframe as [urls ->]. intros [= <-].
    destruct (after_fetch_cases show dir fetched
                (set_requests (requests w ++ urls) w)) as [[-> _]|(Hno & Hw & ->)];
      [done|].
    rewrite files_checkpointed_world. simpl in *.
    destruct (Hs fuel w fetched _ eq_refl Hfetch Hw) as [?|(l & Hl & Hnd & Hin)]; [done|].
    unfold existing_tracks. simpl. rewrite Hl, merge_settled by done.
    by apply insert_id.
  - destruct Hframe as [urls ->]. by intros [= <-].
Qed.

(** After a show is processed its file is settled. *)
Lemma processShow_settles fuel show dir w w' :
  processShow fuel show dir w = Returns tt w' →
  settled (env w') (files w') dir show.
Proof.
  rewrite processShow_outcome.
  pose proof (fetch_show_tracks_frame fuel show w) as Hframe.
  destruct (fetch_show_tracks fuel show w) as [fetched w1|e w1|] eqn:Hfetch; [| |done].
  - destruct Hframe as [urls ->]. intros [= <-] fuel2 w2 fetched2 w2' He Hfetch2 Hw2.
    rewrite env_after_fetch in He, Hw2. simpl in He, Hw2.
    assert (fetched2 = fetched) as ->.
    { pose proof (fetch_show_tracks_again fuel fuel2 show w w2 fetched _
                    (eq_sym He) Hfetch) as H.
      by rewrite Hfetch2 in H. }
    destruct (after_fetch_cases show dir fetched
                (set_requests (requests w ++ urls) w)) as [[-> Hwhy]|(Hno & Hw & ->)].
    + simpl in *. destruct Hwhy as [?|Hw]; [by left|]. congruence.
    + rewrite files_checkpointed_world. simpl. right. eexists.
      rewrite lookup_insert_eq. split_and!; [done|apply merge_dedup_union|].
      intros t Ht. apply merge_dedup_union. by right.
  - destruct Hframe as [urls ->]. intros [= <-] fuel2 w2 fetched2 w2' He Hfetch2 _.
    pose proof (fetch_show_tracks_fails_again fuel fuel2 show w w2 e _
                  (eq_sym He) Hfetch) as H.
    by rewrite Hfetch2 in H.
Qed.

(** ** The loops of [main] *)

Lemma main_credits_cons fuel dir credit rest w :
  main_credits fuel dir (credit :: rest) w =
  if checkpoint_truthy (checkpoint w) (show_name credit)
  then main_credits fuel dir rest w
  else match processShow fuel credit dir w with
       | Returns _ w1 => main_credits fuel dir rest w1
       | Throws e w1 => Throws e w1
       | Diverges => Diverges
       end.
Proof.
  cbn [main_credits]. munfold.
  by destruct (checkpoint_truthy (checkpoint w) (show_name credit)).
Qed.

Lemma main_mixtapes_cons fuel mixtape rest w :
  main_mixtapes fuel (mixtape :: rest) w =
  if mkdir_ok (env w) (Path.join outputDir (mixtape_alias mixtape))
  then match main_credits fuel (Path.join outputDir (mixtape_alias mixtape))
               (credits mixtape) w with
       | Returns _ w1 => main_mixtapes fuel rest w1
       | Throws e w1 => Throws e w1
       | Diverges => Diverges
       end
  else Throws (WriteFailed (Path.join outputDir (mixtape_alias mixtape))) w.
Proof.
  cbn [main_mixtapes]. unfold fs_mkdir. munfold.
  by destruct (mkdir_ok _ _).
Qed.

Lemma main_credits_not_throws fuel dir cs w e w' :
  main_credits fuel dir cs w ≠ Throws e w'.
Proof.
  revert w. induction cs as [|credit rest IH]; intros w; [done|].
  rewrite main_credits_cons.
  destruct (checkpoint_truthy _ _); [apply IH|].
  pose proof (processShow_not_throws fuel credit dir w) as Hno.
  destruct (processShow fuel credit dir w) as [[] w1|e1 w1|]; [apply IH| |done].
  by destruct (Hno e1 w1).
Qed.

Lemma processShow_checkpoint_kept fuel show dir ck0 w w' :
  processShow fuel show dir w = Returns tt w' →
  checkpoint_kept ck0 w → checkpoint_kept ck0 w'.
Proof.
  intros (_ & _ & Hck & Hjson)%processShow_step [Hmem Hfile].
  assert (done_included ck0 (checkpoint w')) as Hmem'.
  { destruct Hck as [->| ->]; [done|].
    eapply done_included_trans; [exact Hmem|apply done_included_assign]. }
  split; [done|]. destruct Hjson as [->| ->]; done.
Qed.

Lemma main_credits_run fuel dir cs w w' :
  main_credits fuel dir cs w = Returns tt w' →
  env w' = env w ∧ grows (files w) (files w') ∧
  ∀ ck0, checkpoint_kept ck0 w → checkpoint_kept ck0 w'.
Proof.
  revert w. induction cs as [|credit rest IH]; intros w.
  { intros [= <-]. split_and!; [done|apply grows_refl|done]. }
  rewrite main_credits_cons.
  destruct (checkpoint_truthy _ _); [apply IH|].
  destruct (processShow fuel credit dir w) as [[] w1|e1 w1|] eqn:Hstep; [|done..].
  intros (He & Hg & Hk)%IH.
  pose proof (processShow_step _ _ _ _ _ Hstep) as (He1 & Hg1 & _).
  split_and!; [congruence|by eapply grows_trans|].
  intros ck0 H0. by eapply Hk, processShow_checkpoint_kept.
Qed.

Lemma main_mixtapes_run fuel ms w w' :
  final (main_mixtapes fuel ms w) = Some w' →
  env w' = env w ∧ grows (files w) (files w') ∧
  ∀ ck0, checkpoint_kept ck0 w → checkpoint_kept ck0 w'.
Proof.
  revert w. induction ms as [|mixtape rest IH]; intros w.
  { intros [= <-]. split_and!; [done|apply grows_refl|done]. }
  rewrite main_mixtapes_cons.
  destruct (mkdir_ok _ _).
  - destruct (main_credits _ _ _ w) as [[] w1|e1 w1|] eqn:Hcs; [| |done].
    + intros (He & Hg & Hk)%IH.
      pose proof (main_credits_run _ _ _ _ _ Hcs) as (He1 & Hg1 & Hk1).
      split_and!; [congruence|by eapply grows_trans|]. intros ck0 H0. by apply Hk, Hk1.
    + by destruct (main_credits_not_throws _ _ _ _ _ _ Hcs).
  - intros [= <-]. split_and!; [done|apply grows_refl|done].
Qed.

(** ** Two runs side by side *)

(** The same show processed in a first run (from [a]) and in a second
    one (from [b]) whose tree [W] lies in the future of the first: the
    second leaves the tree as it is, and sets the flag if the first
    did. *)
Lemma processShow_twice fuel1 fuel2 show dir a a1 b b1 W :
  processShow fuel1 show dir a = Returns tt a1 →
  processShow fuel2 show dir b = Returns tt b1 →
  env a = env b → files b = W → grows (files a1) W →
  done_included (checkpoint a) (checkpoint b) →
  files b1 = W ∧ done_included (checkpoint a1) (checkpoint b1).
Proof.
  intros Ha Hb He HW Hg Hinc. split.
  { rewrite <- HW. eapply processShow_settled; [|done]. rewrite HW, <- He.
    eapply settled_grows; [|done].
    pose proof (processShow_step _ _ _ _ _ Ha) as (<- & _).
    by eapply processShow_settles. }
  revert Ha Hb. rewrite !processShow_outcome.
  pose proof (fetch_show_tracks_frame fuel1 show a) as Hfa.
  pose proof (fetch_show_tracks_frame fuel2 show b) as Hfb.
  destruct (fetch_show_tracks fuel1 show a) as [fetched a'|e a'|] eqn:Hfetch; [| |done].
  - pose proof (fetch_show_tracks_again fuel1 fuel2 show a b fetched _ He Hfetch) as Hag.
    destruct (fetch_show_tracks fuel2 show b) as [fetched2 b'|e b'|]; [|done..].
    subst fetched2. destruct Hfa as [urls ->], Hfb as [urls' ->].
    intros [= <-] [= <-].
    destruct (after_fetch_cases show dir fetched
                (set_requests (requests a ++ urls) a)) as [[-> _]|(Hno & Hw & Ha1)].
    { simpl. eapply done_included_trans; [exact Hinc|].
      destruct (after_fetch_cases show dir fetched
                  (set_requests (requests b ++ urls') b)) as [[-> _]|(_ & _ & ->)];
        [apply done_included_refl|].
      rewrite checkpoint_checkpointed_world. apply done_included_assign. }
    rewrite Ha1 in Hg |- *. rewrite files_checkpointed_world in Hg.
    rewrite checkpoint_checkpointed_world. simpl in *.
    destruct (after_fetch_cases show dir fetched
                (set_requests (requests b ++ urls') b)) as [[_ Hwhy]|(_ & _ & ->)].
    + exfalso. simpl in Hwhy. destruct Hwhy as [Hother|Hw']; [|congruence].
      destruct (Hg (filePath (show_name show) dir)) as [Heq|(out & Hq & _)].
      * rewrite lookup_insert_eq in Heq. congruence.
      * congruence.
    + rewrite checkpoint_checkpointed_world. simpl.
      by apply done_included_assign_both.
  - destruct Hfa as [urls ->]. intros [= <-]. simpl.
    destruct (fetch_show_tracks fuel2 show b) as [fetched2 b'|e2 b'|]; [| |done].
    + destruct Hfb as [urls' ->]. intros [= <-].
      eapply done_included_trans; [exact Hinc|].
      destruct (after_fetch_cases show dir fetched2
                  (set_requests (requests b ++ urls') b)) as [[-> _]|(_ & _ & ->)];
        [apply done_included_refl|].
      rewrite checkpoint_checkpointed_world. apply done_included_assign.
    + destruct Hfb as [urls' ->]. by intros [= <-].
Qed.

Lemma processShow_first_only fuel show dir a a1 b :
  processShow fuel show dir a = Returns tt a1 →
  done_included (checkpoint a) (checkpoint b) →
  checkpoint_truthy (checkpoint b) (show_name show) = true →
  done_included (checkpoint a1) (checkpoint b).
Proof.
  intros (_ & _ & [->| ->] & _)%processShow_step Hinc Hdone; [done|].
  by apply done_included_assigned.
Qed.

Lemma main_credits_twice fuel1 fuel2 dir cs a a' b b' W :
  main_credits fuel1 dir cs a = Returns tt a' →
  main_credits fuel2 dir cs b = Returns tt b' →
  env a = env b → files b = W → grows (files a') W →
  done_included (checkpoint a) (checkpoint b) →
  files b' = W ∧ done_included (checkpoint a') (checkpoint b').
Proof.
  revert a b. induction cs as [|credit rest IH]; intros a b.
  { by intros [= <-] [= <-]. }
  rewrite !main_credits_cons. intros Ha Hb He HW Hg Hinc.
  destruct (checkpoint_truthy (checkpoint a) (show_name credit)) eqn:Hdone.
  { rewrite (Hinc _ Hdone) in Hb. by eapply IH. }
  destruct (processShow fuel1 credit dir a) as [[] a1|e1 a1|] eqn:Hstep; [|done..].
  pose proof (processShow_step _ _ _ _ _ Hstep) as (He1 & _).
  pose proof (main_credits_run _ _ _ _ _ Ha) as (_ & Hg1 & _).
  destruct (checkpoint_truthy (checkpoint b) (show_name credit)) eqn:Hdone2.
  { eapply IH; [done..|congruence|done|done|].
    by eapply processShow_first_only. }
  destruct (processShow fuel2 credit dir b) as [[] b1|e2 b1|] eqn:Hstep2; [|done..].
  pose proof (processShow_step _ _ _ _ _ Hstep2) as (He2 & _).
  destruct (processShow_twice _ _ _ _ _ _ _ _ W Hstep Hstep2) as [HW1 Hinc1];
    [done..|by eapply grows_trans|done|].
  eapply IH; [done..|congruence|done|done|done].
Qed.

Lemma main_mixtapes_twice fuel1 fuel2 ms a a' b b' W :
  final (main_mixtapes fuel1 ms a) = Some a' →
  final (main_mixtapes fuel2 ms b) = Some b' →
  env a = env b → files b = W → grows (files a') W →
  done_included (checkpoint a) (checkpoint b) →
  files b' = W.
Proof.
  revert a b. induction ms as [|mixtape rest IH]; intros a b.
  { by intros [= <-] [= <-]. }
  rewrite !main_mixtapes_cons. intros Ha Hb He HW Hg Hinc. rewrite <- He in Hb.
  destruct (mkdir_ok _ _); [|by injection Hb as <-].
  destruct (main_credits fuel1 _ _ a) as [[] a1|e1 a1|] eqn:Hcs; [| |done].
  2: { by destruct (main_credits_not_throws _ _ _ _ _ _ Hcs). }
  destruct (main_credits fuel2 _ _ b) as [[] b1|e2 b1|] eqn:Hcs2; [| |done].
  2: { by destruct (main_credits_not_throws _ _ _ _ _ _ Hcs2). }
  pose proof (main_credits_run _ _ _ _ _ Hcs) as (He1 & _).
  pose proof (main_credits_run _ _ _ _ _ Hcs2) as (He2 & _).
  pose proof (main_mixtapes_run _ _ _ _ Ha) as (_ & Hg1 & _).
  destruct (main_credits_twice _ _ _ _ _ _ _ _ W Hcs Hcs2) as [HW1 Hinc1];
    [done..|by eapply grows_trans|done|].
  eapply IH; [done..|congruence|done|done|done].
Qed.

(** The two runs of [main]. *)
Lemma main_twice fuel1 fuel2 inputData w0 w1 w2 :
  final (main fuel1 inputData w0) = Some w1 →
  final (main fuel2 inputData w1) = Some w2 →
  files w2 = files w1.
Proof.
  unfold main, load_checkpoint. munfold. simpl. intros H1 H2.
  pose proof (main_mixtapes_run _ _ _ _ H1) as (He & Hg & Hk).
  eapply main_mixtapes_twice;
    [exact H1|exact H2|simpl in *; congruence|done|apply grows_refl|].
  simpl. destruct (Hk (default ∅ (checkpoint_json w0))) as [_ Hfile]; [|done].
  split; apply done_included_refl.
Qed.

(** ** Pagination *)

Lemma next_offset k : k * limit + limit = S k * limit.
Proof. lia. Qed.

Lemma fetch_pages_unfold fuel showPath offset allEpisodes w :
  fetch_pages (S fuel) showPath offset allEpisodes w =
  match api_episodes (env w) (episodes_url showPath offset) with
  | Some episodes =>
      if length episodes =? 0
      then Returns allEpisodes
             (set_requests (requests w ++ [episodes_url showPath offset]) w)
      else fetch_pages fuel showPath (offset + limit) (allEpisodes ++ episodes)
             (set_requests (requests w ++ [episodes_url showPath offset]) w)
  | None => Throws (RequestFailed (episodes_url showPath offset))
              (set_requests (requests w ++ [episodes_url showPath offset]) w)
  end.
Proof.
  cbn [fetch_pages]. unfold axios_get_episodes. munfold.
  destruct (api_episodes _ _) as [episodes|]; [|done].
  by destruct (length episodes =? 0).
Qed.

Lemma pages_served_from_cons e showPath k page pages :
  pages_served_from e showPath k (page :: pages) ↔
  api_episodes e (episodes_url showPath (k * limit)) = Some page ∧ page ≠ [] ∧
  pages_served_from e showPath (S k) pages.
Proof.
  unfold pages_served_from. split.
  - intros [Hpages Hlast]. destruct (Hpages 0 page eq_refl) as [H0 Hne].
    rewrite Nat.add_0_r in H0. split_and!; [done..| |].
    + intros i p Hi. specialize (Hpages (S i) p Hi).
      by replace (S k + i) with (k + S i) by lia.
    + simpl in Hlast. by replace (S k + length pages) with (k + S (length pages)) by lia.
  - intros (H0 & Hne & Hpages & Hlast). split.
    + intros [|i] p Hi; simplify_eq/=.
      * by rewrite Nat.add_0_r.
      * replace (k + S i) with (S k + i) by lia. by apply Hpages.
    + simpl. by replace (k + S (length pages)) with (S k + length pages) by lia.
Qed.

Lemma fetch_pages_returns fuel showPath k allEpisodes w episodes w' :
  fetch_pages fuel showPath (k * limit) allEpisodes w = Returns episodes w' ↔
  ∃ pages, pages_served_from (env w) showPath k pages ∧ length pages < fuel ∧
           episodes = allEpisodes ++ concat pages ∧
           w' = set_requests (requests w ++ page_urls_from showPath k (S (length pages))) w.
Proof.
  revert k allEpisodes w. induction fuel as [|fuel IH]; intros k allEpisodes w.
  { split; [done|]. intros (? & _ & ? & _). lia. }
  rewrite fetch_pages_unfold.
  destruct (api_episodes (env w) (episodes_url showPath (k * limit)))
    as [[|episode page]|] eqn:Hpage; simpl.
  - split.
    + intros [= <- <-]. exists []. split_and!.
      * split; [done|]. simpl. by rewrite Nat.add_0_r.
      * simpl. lia.
      * by rewrite app_nil_r.
      * done.
    + intros ([|page pages] & Hserved & _ & -> & ->).
      * by rewrite app_nil_r.
      * apply pages_served_from_cons in Hserved as (H0 & Hne & _). congruence.
  - rewrite next_offset, IH. simpl. split.
    + intros (pages & Hserved & Hlen & -> & ->).
      exists ((episode :: page) :: pages). split_and!.
      * by apply pages_served_from_cons.
      * simpl. lia.
      * simpl. by rewrite <- app_assoc.
      * simpl. by rewrite <- app_assoc.
    + intros ([|page' pages] & Hserved & Hlen & -> & ->).
      * destruct Hserved as [_ Hlast]. simpl in Hlast.
        rewrite Nat.add_0_r in Hlast. congruence.
      * apply pages_served_from_cons in Hserved as (H0 & Hne & Hserved).
        assert (page' = episode :: page) as -> by congruence.
        exists pages. split_and!; [done|simpl in Hlen; lia| |].
        -- simpl. by rewrite <- app_assoc.
        -- simpl. by rewrite <- app_assoc.
  - split; [done|]. intros ([|page pages] & Hserved & _).
    + destruct Hserved as [_ Hlast]. simpl in Hlast.
      rewrite Nat.add_0_r in Hlast. congruence.
    + apply pages_served_from_cons in Hserved as (H0 & _). congruence.
Qed.

(** With a non-empty page at every offset the loop never leaves. *)
Lemma fetch_pages_runs_on fuel showPath k allEpisodes w :
  (∀ i, ∃ page, api_episodes (env w) (episodes_url showPath (i * limit)) = Some page
                ∧ page ≠ []) →
  fetch_pages fuel showPath (k * limit) allEpisodes w = Diverges.
Proof.
  intros Hall. revert k allEpisodes w Hall.
  induction fuel as [|fuel IH]; intros k allEpisodes w Hall; [done|].
  rewrite fetch_pages_unfold. destruct (Hall k) as ([|episode page] & -> & Hne); [done|].
  simpl. rewrite next_offset. by apply IH.
Qed.

(** ** The loop over the episodes *)

Lemma visit_episode_outcome allTracks episode w :
  visit_episode allTracks episode w =
  match tracklistUrl episode with
  | Some url =>
      if decide (url = "") then Returns allTracks w
      else match api_tracklist (env w) url with
           | Some results =>
               Returns (JS.Set_add_all allTracks
                          (JSON_stringify <$> (project_track <$> results)))
                       (set_requests (requests w ++ [url]) w)
           | None => Throws (RequestFailed url) (set_requests (requests w ++ [url]) w)
           end
  | None => Returns allTracks w
  end.
Proof.
  unfold visit_episode, fetchTracklist, axios_get_tracklist. munfold.
  destruct (tracklistUrl episode) as [url|]; [|done].
  case_decide; [done|]. by destruct (api_tracklist _ _).
Qed.

Lemma visit_episode_returns allTracks episode w r w' :
  visit_episode allTracks episode w = Returns r w' →
  env w' = env w ∧
  r = JS.Set_add_all allTracks (JSON_stringify <$> served_tracks (env w) episode).
Proof.
  rewrite visit_episode_outcome. unfold served_tracks.
  destruct (tracklistUrl episode) as [url|]; [|by intros [= <- <-]].
  case_decide; [by intros [= <- <-]|].
  destruct (api_tracklist _ _); [|done]. by intros [= <- <-].
Qed.

Lemma Set_add_all_app s xs ys :
  JS.Set_add_all s (xs ++ ys) = JS.Set_add_all (JS.Set_add_all s xs) ys.
Proof. unfold JS.Set_add_all. apply foldl_app. Qed.

Lemma visit_episodes_returns episodes allTracks w r w' :
  visit_episodes allTracks episodes w = Returns r w' →
  env w' = env w ∧
  r = JS.Set_add_all allTracks
        (JSON_stringify <$> (episodes ≫= served_tracks (env w))).
Proof.
  revert allTracks w. induction episodes as [|episode rest IH]; intros allTracks w.
  { by intros [= <- <-]. }
  cbn [visit_episodes]. unfold mbind at 1. unfold M_bind.
  destruct (visit_episode allTracks episode w) as [r1 w1|e1 w1|] eqn:Hfirst; [|done..].
  apply visit_episode_returns in Hfirst as [He1 ->].
  intros (He & ->)%IH. split; [congruence|].
  rewrite He1. cbn [mbind list_bind]. by rewrite fmap_app, Set_add_all_app.
Qed.

(** The tracks of a run: every track served for an episode of the show,
    each once. *)
Lemma fetch_show_tracks_returns fuel show w fetched w' :
  fetch_show_tracks fuel show w = Returns fetched w' →
  ∃ episodes w1,
    fetchAllEpisodes fuel (show_path show) (isGuestShow show) w = Returns episodes w1 ∧
    fetched = merge [] (episodes ≫= served_tracks (env w)).
Proof.
  unfold fetch_show_tracks. unfold mbind at 1 2. unfold M_bind.
  pose proof (agree_fetchAllEpisodes fuel fuel (show_path show) (isGuestShow show)
                w w eq_refl) as Hframe.
  destruct (fetchAllEpisodes _ _ _ w) as [episodes w1|e1 w1|]; [|done..].
  destruct Hframe as (_ & urls & -> & _).
  destruct (visit_episodes [] episodes _) as [r w2|e2 w2|] eqn:Hvisit; [|done..].
  apply visit_episodes_returns in Hvisit as [_ ->]. simpl.
  change (@nil string) with (JSON_stringify <$> @nil Track).
  rewrite Set_add_all_stringify, parse_all_stringify. intros [= <- <-].
  by eexists _, _.
Qed.

Lemma fetch_show_tracks_NoDup fuel show w fetched w' :
  fetch_show_tracks fuel show w = Returns fetched w' → NoDup fetched.
Proof.
  intros (episodes & w1 & _ & ->)%fetch_show_tracks_returns.
  apply merge_dedup_union.
Qed.

Lemma fetch_show_tracks_key_order fuel show w fetched w' t :
  fetch_show_tracks fuel show w = Returns fetched w' →
  t ∈ fetched → key_order t = ArtistTitle.
Proof.
  intros (episodes & w1 & _ & ->)%fetch_show_tracks_returns Ht.
  apply merge_dedup_union in Ht as [Ht|Ht]; [by apply elem_of_nil in Ht|].
  apply list_elem_of_bind in Ht as (episode & Ht & _).
  unfold served_tracks in Ht. destruct (tracklistUrl episode); [|by apply elem_of_nil in Ht].
  case_decide; [by apply elem_of_nil in Ht|].
  by apply list_elem_of_fmap in Ht as (raw & -> & _).
Qed.

(** ** [includes] *)

Lemma prefix_app p s : String.prefix p (p +:+ s) = true.
Proof.
  induction p as [|c p IH]; [by destruct s|].
  rewrite string_app_cons. simpl. by destruct (ascii_dec c c).
Qed.

Lemma prefix_inv p s : String.prefix p s = true → ∃ rest, s = p +:+ rest.
Proof.
  revert s. induction p as [|c p IH]; intros s; [by exists s|].
  destruct s as [|d s]; [done|]. simpl.
  destruct (ascii_dec c d) as [->|]; [|done].
  intros [rest ->]%IH. by exists rest.
Qed.

Lemma includes_substring needle hay :
  JS.includes needle hay = true ↔ is_substring needle hay.
Proof.
  unfold is_substring. induction hay as [|c hay IH]; cbn [JS.includes].
  - rewrite orb_false_r. split.
    + intros [rest ->]%prefix_inv. by exists "", rest.
    + intros ([|? ?] & after & H); [|done].
      rewrite string_app_empty_l in H. rewrite H. apply prefix_app.
  - rewrite orb_true_iff, IH. split.
    + intros [[rest ->]%prefix_inv|(before & after & ->)].
      * by exists "", rest.
      * by exists (String c before), after.
    + intros ([|d before] & after & H).
      * left. rewrite string_app_empty_l in H. rewrite H. apply prefix_app.
      * right. rewrite string_app_cons in H. injection H as -> ->.
        by exists before, after.
Qed.

(** ** Sanitization *)

Lemma is_whitespace_toLowerCase c :
  JS.is_whitespace (JS.toLowerCase_char c) = JS.is_whitespace c.
Proof. by destruct c as [[][][][][][][][]]. Qed.

Lemma slash_toLowerCase c :
  Ascii.eqb (JS.toLowerCase_char c) JS.slash = Ascii.eqb c JS.slash.
Proof. by destruct c as [[][][][][][][][]]. Qed.

Lemma sanitize_from_refines in_run s :
  JS.replace_slashes (JS.replace_ws_from in_run (JS.toLowerCase s))
  = sanitize_from in_run s.
Proof.
  revert in_run. induction s as [|c s IH]; intros in_run; [done|].
  cbn [JS.toLowerCase JS.map_chars JS.replace_ws_from sanitize_from].
  rewrite is_whitespace_toLowerCase.
  destruct (JS.is_whitespace c).
  - destruct in_run; [apply IH|].
    cbn [JS.replace_slashes JS.map_chars]. f_equal. apply IH.
  - cbn [JS.replace_slashes JS.map_chars]. rewrite slash_toLowerCase.
    f_equal. apply IH.
Qed.

Lemma sanitizedShowName_spec showName : sanitizedShowName showName = sanitize_spec showName.
Proof. apply sanitize_from_refines. Qed.

(** ** Paths *)

Lemma slash_free_cons c s : slash_free (String c s) ↔ c ≠ JS.slash ∧ slash_free s.
Proof.
  unfold slash_free. cbn [JS.includes String.prefix].
  destruct (ascii_dec "/" c) as [<-|Hne].
  - split; [|by intros [? _]]. by destruct s.
  - simpl. split; [intros ?; split; [by intros ->|done]|by intros [_ ?]].
Qed.

Lemma slash_free_app s t : slash_free s → slash_free t → slash_free (s +:+ t).
Proof.
  intros Hs Ht. induction s as [|c s IH]; [done|].
  rewrite string_app_cons. apply slash_free_cons in Hs as [? ?].
  apply slash_free_cons. auto.
Qed.

Lemma slash_free_sanitize_from in_run s : slash_free (sanitize_from in_run s).
Proof.
  revert in_run. induction s as [|c s IH]; intros in_run; [done|].
  cbn [sanitize_from]. destruct (JS.is_whitespace c).
  - destruct in_run; [apply IH|]. apply slash_free_cons. split; [done|apply IH].
  - apply slash_free_cons. split; [|apply IH].
    destruct (Ascii.eqb c JS.slash) eqn:Heq; [done|].
    intros Hs. rewrite <- slash_toLowerCase in Heq. rewrite Hs in Heq. done.
Qed.

Lemma split_slash_free s : slash_free s → Path.split s = [s].
Proof.
  induction s as [|c s IH]; [done|]. intros [Hc Hs]%slash_free_cons.
  cbn [Path.split]. rewrite (proj2 (Ascii.eqb_neq _ _) Hc), (IH Hs). done.
Qed.

Lemma split_app_slash s rest :
  slash_free s → Path.split (s +:+ "/" +:+ rest) = s :: Path.split rest.
Proof.
  induction s as [|c s IH]; [done|]. intros [Hc Hs]%slash_free_cons.
  rewrite string_app_cons. cbn [Path.split].
  rewrite (proj2 (Ascii.eqb_neq _ _) Hc), (IH Hs). done.
Qed.

Lemma split_join_segments seg segs :
  Forall slash_free (seg :: segs) →
  Path.split (Path.join_segments (seg :: segs)) = seg :: segs.
Proof.
  revert seg. induction segs as [|seg' segs IH]; intros seg Hall.
  - apply split_slash_free. by inversion Hall.
  - inversion Hall as [|? ? Hseg Hrest]; subst.
    change (Path.join_segments (seg :: seg' :: segs))
      with (seg +:+ "/" +:+ Path.join_segments (seg' :: segs)).
    by rewrite split_app_slash, IH.
Qed.

Lemma push_plain_segments allow segs stack :
  Forall plain_segment segs →
  foldl (Path.push_segment allow) stack segs = rev segs ++ stack.
Proof.
  revert stack. induction segs as [|seg segs IH]; intros stack Hall; [done|].
  inversion Hall as [|? ? (Hne & Hdot & Hdots & _) Hrest]; subst.
  cbn [foldl]. unfold Path.push_segment at 2.
  rewrite decide_False by (intros [?|?]; done).
  rewrite decide_False by done.
  rewrite IH by done. simpl. by rewrite <- app_assoc.
Qed.

Lemma join_segments_nonempty seg segs : seg ≠ "" → Path.join_segments (seg :: segs) ≠ "".
Proof. destruct seg; [done|]. intros _. by destruct segs. Qed.

Lemma starts_with_slash_join seg segs :
  plain_segment seg → Path.starts_with_slash (Path.join_segments (seg :: segs)) = false.
Proof.
  intros (Hne & _ & _ & Hfree). destruct seg as [|c seg]; [done|].
  apply slash_free_cons in Hfree as [Hc _].
  destruct segs; simpl; by apply Ascii.eqb_neq.
Qed.

Lemma ends_with_slash_cons c s :
  s ≠ "" → Path.ends_with_slash (String c s) = Path.ends_with_slash s.
Proof. by destruct s. Qed.

Lemma ends_with_slash_app s t :
  t ≠ "" → Path.ends_with_slash (s +:+ t) = Path.ends_with_slash t.
Proof.
  intros Ht. induction s as [|c s IH]; [done|].
  rewrite string_app_cons, ends_with_slash_cons; [done|].
  destruct s; [done|]. by rewrite string_app_cons.
Qed.

Lemma ends_with_slash_free s : slash_free s → Path.ends_with_slash s = false.
Proof.
  induction s as [|c s IH]; [done|]. intros [Hc Hs]%slash_free_cons.
  destruct s as [|d s]; [by apply Ascii.eqb_neq|].
  rewrite ends_with_slash_cons by done. by apply IH.
Qed.

Lemma ends_with_slash_join seg segs :
  Forall plain_segment (seg :: segs) →
  Path.ends_with_slash (Path.join_segments (seg :: segs)) = false.
Proof.
  revert seg. induction segs as [|seg' segs IH]; intros seg Hall.
  - inversion Hall as [|? ? (_ & _ & _ & Hfree) _]; subst. by apply ends_with_slash_free.
  - inversion Hall as [|? ? _ Hrest]; subst.
    change (Path.join_segments (seg :: seg' :: segs))
      with (seg +:+ "/" +:+ Path.join_segments (seg' :: segs)).
    rewrite ends_with_slash_app.
    + change (Path.ends_with_slash
                (String "/"%char (Path.join_segments (seg' :: segs))) = false).
      rewrite ends_with_slash_cons; [by apply IH|].
      apply join_segments_nonempty. inversion Hrest as [|? ? (? & _) _]; by subst.
    + done.
Qed.

(** A path made of plain_segment segments is normalised already. *)
Lemma normalize_plain seg segs :
  Forall plain_segment (seg :: segs) →
  Path.normalize (Path.join_segments (seg :: segs)) = Path.join_segments (seg :: segs).
Proof.
  intros Hall. pose proof Hall as Hall'. inversion Hall' as [|? ? Hseg _]; subst.
  assert (Path.join_segments (seg :: segs) ≠ "") as Hne.
  { apply join_segments_nonempty, Hseg. }
  unfold Path.normalize. rewrite decide_False by done.
  rewrite starts_with_slash_join, ends_with_slash_join by done.
  unfold Path.normalizeString. rewrite split_join_segments.
  2: { eapply Forall_impl; [done|]. by intros ? (_ & _ & _ & ?). }
  rewrite push_plain_segments, app_nil_r, rev_involutive by done.
  rewrite decide_False by done. simpl. by rewrite string_app_empty_r.
Qed.

Lemma join_plain seg segs b :
  Forall plain_segment (seg :: segs) → plain_segment b →
  Path.join (Path.join_segments (seg :: segs)) b
  = Path.join_segments ((seg :: segs) ++ [b]).
Proof.
  intros Hall Hb. pose proof Hall as Hall'. inversion Hall' as [|? ? Hseg _]; subst.
  unfold Path.join.
  rewrite decide_False by (apply join_segments_nonempty, Hseg).
  rewrite decide_False by apply Hb.
  assert (Path.join_segments (seg :: segs) +:+ "/" +:+ b
          = Path.join_segments ((seg :: segs) ++ [b])) as ->.
  { clear Hall Hall' Hseg. revert seg.
    induction segs as [|seg' segs IH]; intros seg; [done|].
    change (Path.join_segments (seg :: seg' :: segs))
      with (seg +:+ "/" +:+ Path.join_segments (seg' :: segs)).
    change (Path.join_segments ((seg :: seg' :: segs) ++ [b]))
      with (seg +:+ "/" +:+ Path.join_segments ((seg' :: segs) ++ [b])).
    by rewrite <- IH, !string_app_assoc. }
  apply (normalize_plain seg (segs ++ [b])).
  rewrite app_comm_cons. apply Forall_app. by split; [|apply Forall_singleton].
Qed.

Lemma string_length_app s t : String.length (s +:+ t) = String.length s + String.length t.
Proof. induction s as [|c s IH]; [done|]. rewrite string_app_cons. simpl. by rewrite IH. Qed.

Lemma plain_fileName showName : plain_segment (fileName showName).
Proof.
  unfold fileName.
  assert (∀ s, String.length s < 15 → sanitizedShowName showName +:+ "_tracklist.json" ≠ s)
    as Hlen.
  { intros s Hs Heq. rewrite <- Heq, string_length_app in Hs. simpl in Hs. lia. }
  split_and!; try (apply Hlen; simpl; lia).
  apply slash_free_app; [|done].
  rewrite sanitizedShowName_spec. apply slash_free_sanitize_from.
Qed.

(** ** The [try] of [processShow], when it gets through *)

Lemma processShow_try_returns fuel show dir w w' :
  processShow_try fuel show dir w = Returns tt w' →
  ∃ fetched w1,
    fetch_show_tracks fuel show w = Returns fetched w1 ∧
    files w1 = files w ∧
    w' = checkpointed_world (show_name show) (length fetched)
           (saved_world (show_name show) dir fetched w1).
Proof.
  unfold processShow_try. unfold mbind at 1 2 3 4. unfold M_bind.
  pose proof (fetch_show_tracks_frame fuel show w) as Hframe.
  destruct (fetch_show_tracks fuel show w) as [fetched w1|e w1|]; [|done..].
  destruct Hframe as [urls ->].
  rewrite saveTracklist_outcome. case_decide; [done|].
  destruct (writable _ (filePath _ _)); [|done].
  unfold modify, write_checkpoint_json, checkpointed_world. simpl.
  destruct (writable _ "checkpoint.json") eqn:Hck; [|done].
  intros [= <-]. eexists _, _. split_and!; [done..|].
  simpl in *. by rewrite Hck.
Qed.

Lemma dedup_union_same_order out existing fetched :
  dedup_union out existing fetched →
  (∀ t, t ∈ existing → key_order t = ArtistTitle) →
  (∀ t, t ∈ fetched → key_order t = ArtistTitle) →
  dedup_union_by_fields out existing fetched.
Proof.
  intros [Hnd Hin] Hex Hfe.
  assert (∀ t, t ∈ out → key_order t = ArtistTitle) as Hout.
  { intros t [?|?]%Hin; auto. }
  split_and!.
  - intros i j a b Ha Hb [Hartist Htitle].
    assert (a = b) as ->.
    { pose proof (Hout a (list_elem_of_lookup_2 _ _ _ Ha)) as Hoa.
      pose proof (Hout b (list_elem_of_lookup_2 _ _ _ Hb)) as Hob.
      destruct a, b; simpl in *. congruence. }
    by eapply NoDup_lookup.
  - intros t Ht. exists t. split; [by apply Hin|done].
  - intros t Ht. by apply Hin.
Qed.

(** What a run of the [try] that gets through has written. *)
Lemma processShow_try_writes fuel show dir w w' :
  processShow_try fuel show dir w = Returns tt w' →
  ∃ fetched w1 out,
    fetch_show_tracks fuel show w = Returns fetched w1 ∧
    files w' !! filePath (show_name show) dir = Some (Json (JTracks out)) ∧
    dedup_union out (existing_tracks w (filePath (show_name show) dir)) fetched.
Proof.
  intros (fetched & w1 & Hfetch & Hfiles & ->)%processShow_try_returns.
  exists fetched, w1, (merge (existing_tracks w (filePath (show_name show) dir)) fetched).
  split_and!; [done| |apply merge_dedup_union].
  rewrite files_checkpointed_world. unfold saved_world, existing_tracks. simpl.
  by rewrite lookup_insert_eq, Hfiles.
Qed.

(** C1 (as amended): on a run of [processShow] that gets through, the
    file written holds the union, without repetition, of the tracks of
    the existing file (none if absent or unparseable) and the tracks
    fetched, tracks being compared through their fingerprints, that is
    as objects (fields and property order).  Whenever every track of
    the existing file has its properties in the order artist, title,
    this is the union under field equality, and every track of the file
    written has that order again.  And a second run of [main] leaves
    every output file as the first run left it. *)
Theorem merge_on_write_idempotent :
  (∀ fuel show dir w w',
     processShow_try fuel show dir w = Returns tt w' →
     ∃ fetched w1 out,
       fetch_show_tracks fuel show w = Returns fetched w1 ∧
       files w' !! filePath (show_name show) dir = Some (Json (JTracks out)) ∧
       dedup_union out (existing_tracks w (filePath (show_name show) dir)) fetched ∧
       ((∀ t, t ∈ existing_tracks w (filePath (show_name show) dir) →
              key_order t = ArtistTitle) →
        dedup_union_by_fields out
          (existing_tracks w (filePath (show_name show) dir)) fetched ∧
        (∀ t, t ∈ out → key_order t = ArtistTitle))) ∧
  (∀ fuel1 fuel2 inputData w0 w1 w2,
     final (main fuel1 inputData w0) = Some w1 →
     final (main fuel2 inputData w1) = Some w2 →
     files w2 = files w1).
Proof.
  split; [|apply main_twice].
  intros fuel show dir w w' (fetched & w1 & Hfetch & Hfiles & ->)%processShow_try_returns.
  exists fetched, w1, (merge (existing_tracks w (filePath (show_name show) dir)) fetched).
  assert (existing_tracks w1 (filePath (show_name show) dir)
          = existing_tracks w (filePath (show_name show) dir)) as Hex.
  { unfold existing_tracks. by rewrite Hfiles. }
  assert (∀ t, t ∈ fetched → key_order t = ArtistTitle) as Hfetched.
  { intros t Ht. by eapply fetch_show_tracks_key_order. }
  split_and!; [done| |apply merge_dedup_union|].
  - rewrite files_checkpointed_world. unfold saved_world. simpl.
    by rewrite lookup_insert_eq, Hex.
  - intros Horder. split.
    + by apply dedup_union_same_order; [apply merge_dedup_union|..].
    + intros t Ht. apply merge_dedup_union in Ht as [?|?]; auto.
Qed.

Lemma merge_on_write_field_equality_fails :
  ¬ (∀ fuel show dir w w' fetched w1 out,
       processShow_try fuel show dir w = Returns tt w' →
       fetch_show_tracks fuel show w = Returns fetched w1 →
       files w' !! filePath (show_name show) dir = Some (Json (JTracks out)) →
       dedup_union_by_fields out
         (existing_tracks w (filePath (show_name show) dir)) fetched).
Proof.
  intros H.
  assert (dedup_union_by_fields
            [Sample.track_AT_title_first; Sample.track_AT; Sample.track_AT_spaced]
            [Sample.track_AT_title_first] [Sample.track_AT; Sample.track_AT_spaced])
    as (Huniq & _).
  { eapply (H 2 Sample.show_foo Sample.folder Sample.world_title_first);
      vm_compute; reflexivity. }
  specialize (Huniq 0 1 Sample.track_AT_title_first Sample.track_AT
                eq_refl eq_refl (conj eq_refl eq_refl)).
  discriminate Huniq.
Qed.

Lemma merge_on_write_idempotent_witness :
  files (Sample.run (Sample.run Sample.world_older_track))
  = files (Sample.run Sample.world_older_track).
Proof.
  apply (proj2 merge_on_write_idempotent 2 2 Sample.catalog Sample.world_older_track);
    vm_compute; reflexivity.
Defined.

Lemma pages_served_from_0 e showPath pages :
  pages_served e showPath pages ↔ pages_served_from e showPath 0 pages.
Proof. done. Qed.

(** C2: for a show that is not a guest show, [fetchAllEpisodes] returns
    exactly when the upstream serves non-empty pages at offsets 0, 12,
    ... followed by an empty page (and the model's fuel covers them); it
    then returns the pages in page order and has requested the offsets
    0, 12, ... up to that of the empty page, each with limit 12. *)
Theorem fetchAllEpisodes_pagination fuel showPath w episodes w' :
  fetchAllEpisodes fuel showPath false w = Returns episodes w' ↔
  ∃ pages, pages_served (env w) showPath pages ∧ length pages < fuel ∧
           episodes = concat pages ∧
           w' = set_requests (requests w ++ page_urls showPath (S (length pages))) w.
Proof.
  unfold fetchAllEpisodes.
  change 0 with (0 * limit). rewrite fetch_pages_returns.
  by setoid_rewrite pages_served_from_0.
Qed.

Lemma fetchAllEpisodes_pagination_witness :
  ∃ episodes w',
    fetchAllEpisodes 3 "/shows/foo" false (Sample.fresh Sample.env_two_pages)
    = Returns episodes w' ∧
    length episodes = 24 ∧ length (requests w') = 3 ∧
    requests w' = [episodes_url "/shows/foo" 0; episodes_url "/shows/foo" 12;
                   episodes_url "/shows/foo" 24].
Proof.
  eexists _, _. split.
  - apply (proj2 (fetchAllEpisodes_pagination 3 "/shows/foo"
                    (Sample.fresh Sample.env_two_pages) _ _)).
    exists [Sample.full_page; Sample.full_page]. split_and!.
    + split.
      * intros [|[|k]] page Hk.
        -- injection Hk as <-. vm_compute. done.
        -- injection Hk as <-. vm_compute. done.
        -- done.
      * vm_compute. reflexivity.
    + simpl. lia.
    + reflexivity.
    + reflexivity.
  - vm_compute. done.
Defined.

(** C3: when fetching the episodes or the tracklists, merging or
    writing the output file throws, [processShow] catches the
    exception and returns; the checkpoint, in memory and on disk, and
    the output tree are as before; and the crawl goes on with the
    shows and mixtapes that follow. *)
Theorem processShow_failure_isolated fuel show dir w e w1 :
  (deduplicatedTracks ← fetch_show_tracks fuel show;
   saveTracklist (show_name show) deduplicatedTracks dir) w = Throws e w1 →
  processShow fuel show dir w = Returns tt w1 ∧
  checkpoint w1 = checkpoint w ∧
  checkpoint_json w1 = checkpoint_json w ∧
  files w1 = files w ∧
  ∀ rest ms,
    checkpoint_truthy (checkpoint w) (show_name show) = false →
    (main_credits fuel dir (show :: rest);; main_mixtapes fuel ms) w
    = (main_credits fuel dir rest;; main_mixtapes fuel ms) w1.
Proof.
  intros Hthrows.
  assert (processShow fuel show dir w = Returns tt w1 ∧
          ∃ urls, w1 = set_requests (requests w ++ urls) w) as [Hcaught [urls ->]].
  { revert Hthrows. unfold processShow, processShow_try, try_catch.
    unfold mbind at 1 2 3 4 5. unfold M_bind.
    pose proof (fetch_show_tracks_frame fuel show w) as Hframe.
    destruct (fetch_show_tracks fuel show w) as [fetched w2|e2 w2|]; [| |done].
    - destruct Hframe as [urls ->]. rewrite saveTracklist_outcome.
      case_decide; [intros [= <- <-]; eauto|].
      destruct (writable _ _); [done|]. intros [= <- <-]; eauto.
    - destruct Hframe as [urls ->]. intros [= <- <-]; eauto. }
  split_and!; [done..|].
  intros rest ms Hnot. unfold mbind, M_bind.
  by rewrite main_credits_cons, Hnot, Hcaught.
Qed.

Lemma processShow_failure_isolated_witness :
  processShow 2 Sample.show_bar Sample.folder (Sample.fresh Sample.env_foo)
  = Returns tt (set_requests [episodes_url "/shows/bar" 0] (Sample.fresh Sample.env_foo)) ∧
  (main_credits 2 Sample.folder [Sample.show_bar; Sample.show_foo];;
   main_mixtapes 2 []) (Sample.fresh Sample.env_foo)
  = (main_credits 2 Sample.folder [Sample.show_foo];; main_mixtapes 2 [])
      (set_requests [episodes_url "/shows/bar" 0] (Sample.fresh Sample.env_foo)).
Proof.
  destruct (processShow_failure_isolated 2 Sample.show_bar Sample.folder
              (Sample.fresh Sample.env_foo)
              (RequestFailed (episodes_url "/shows/bar" 0))
              (set_requests [episodes_url "/shows/bar" 0] (Sample.fresh Sample.env_foo)))
    as (Hcaught & _ & _ & _ & Hnext).
  - vm_compute. reflexivity.
  - split; [exact Hcaught|].
    apply Hnext. vm_compute. reflexivity.
Defined.

(** When everything up to the output file went through and it is the
    checkpoint file that cannot be written, the exception is caught as
    well, with the flag already set in memory. *)
Remark processShow_checkpoint_write_fails fuel show dir w fetched w1 w2 :
  fetch_show_tracks fuel show w = Returns fetched w1 →
  saveTracklist (show_name show) fetched dir w1 = Returns tt w2 →
  writable (env w) "checkpoint.json" = false →
  ∃ w', processShow fuel show dir w = Returns tt w' ∧
        checkpoint w' = checkpoint_assign (checkpoint w) (show_name show) ∧
        checkpoint_json w' = checkpoint_json w.
Proof.
  intros Hfetch Hsave Hck. rewrite processShow_outcome, Hfetch.
  pose proof (fetch_show_tracks_frame fuel show w) as Hframe.
  rewrite Hfetch in Hframe. destruct Hframe as [urls ->].
  revert Hsave. rewrite saveTracklist_outcome. unfold after_fetch.
  case_decide; [done|]. destruct (writable _ (filePath _ _)); [|done].
  intros _. eexists. split; [done|].
  unfold checkpointed_world. simpl. by rewrite Hck.
Qed.

(** C5: for a guest show [fetchAllEpisodes] requests nothing and
    returns one episode, whose only link has rel "tracklist" and href
    [baseUrl], the show's path and "/tracklist". *)
Theorem fetchAllEpisodes_guest fuel showPath w :
  fetchAllEpisodes fuel showPath true w
  = Returns [mkEpisode "" [mkLink "tracklist" (baseUrl +:+ showPath +:+ "/tracklist")]] w.
Proof. done. Qed.

(** ** Flags survive the loops *)

Lemma main_credits_marked fuel dir cs w w' name :
  main_credits fuel dir cs w = Returns tt w' →
  checkpoint w !! name = Some true → checkpoint w' !! name = Some true.
Proof.
  revert w. induction cs as [|credit rest IH]; intros w; [by intros [= <-]|].
  rewrite main_credits_cons. destruct (checkpoint_truthy _ _); [apply IH|].
  destruct (processShow fuel credit dir w) as [[] w1|e1 w1|] eqn:Hstep; [|done..].
  intros Hrest Hmark. eapply IH; [done|].
  apply processShow_step in Hstep as (_ & _ & [->| ->] & _); [done|].
  by apply checkpoint_assign_marked.
Qed.

Lemma checkpoint_truthy_marked ck name :
  ck !! name = Some true → checkpoint_truthy ck name = true.
Proof. unfold checkpoint_truthy. by intros ->. Qed.

Lemma main_credits_skip fuel dir pre show post w :
  checkpoint w !! show_name show = Some true →
  main_credits fuel dir (pre ++ show :: post) w = main_credits fuel dir (pre ++ post) w.
Proof.
  revert w. induction pre as [|credit pre IH]; intros w Hmark.
  { simpl app. by rewrite main_credits_cons, checkpoint_truthy_marked. }
  rewrite <- !app_comm_cons, !main_credits_cons.
  destruct (checkpoint_truthy _ _); [by apply IH|].
  destruct (processShow fuel credit dir w) as [[] w1|e1 w1|] eqn:Hstep; [|done..].
  apply IH. apply processShow_step in Hstep as (_ & _ & [->| ->] & _); [done|].
  by apply checkpoint_assign_marked.
Qed.

Lemma main_mixtapes_skip fuel before alias pre show post after w :
  checkpoint w !! show_name show = Some true →
  main_mixtapes fuel (before ++ mkMixtape alias (pre ++ show :: post) :: after) w
  = main_mixtapes fuel (before ++ mkMixtape alias (pre ++ post) :: after) w.
Proof.
  revert w. induction before as [|mixtape before IH]; intros w Hmark.
  { simpl app. rewrite !main_mixtapes_cons. simpl.
    by rewrite main_credits_skip. }
  rewrite <- !app_comm_cons, !main_mixtapes_cons.
  destruct (mkdir_ok _ _); [|done].
  destruct (main_credits _ _ _ w) as [[] w1|e1 w1|] eqn:Hcs; [|done..].
  apply IH. by eapply main_credits_marked.
Qed.

(** C6: a show that the loaded checkpoint marks done is passed over: the
    run is the run of the catalog without that show, so it requests
    nothing and writes nothing on its account. *)
Theorem checkpoint_skip fuel before alias pre show post after w ck0 :
  checkpoint_json w = Some ck0 →
  ck0 !! show_name show = Some true →
  main fuel (before ++ mkMixtape alias (pre ++ show :: post) :: after) w
  = main fuel (before ++ mkMixtape alias (pre ++ post) :: after) w.
Proof.
  intros Hjson Hmark. unfold main, load_checkpoint. munfold. simpl.
  apply main_mixtapes_skip. simpl. by rewrite Hjson.
Qed.

Lemma checkpoint_skip_witness :
  main 2 ([] ++ mkMixtape "mix" ([Sample.show_bar] ++ Sample.show_foo :: []) :: [])
    Sample.world_foo_done
  = main 2 ([] ++ mkMixtape "mix" ([Sample.show_bar] ++ []) :: []) Sample.world_foo_done.
Proof.
  apply (checkpoint_skip 2 [] "mix" [Sample.show_bar] Sample.show_foo [] []
           Sample.world_foo_done {[ "Foo" := true ]}); vm_compute; reflexivity.
Defined.

(** C4 (as amended): the fingerprint of a track is its serialization,
    so two fingerprints are equal exactly when the tracks have the same
    artist and title in the same property order; for two tracks of one
    property order, and so for any two that [fetchTracklist] builds,
    that is equality field for field.  Strings are compared as they
    are: A/T met twice is kept once, A/T and "A "/T are both kept. *)
Theorem fingerprint_equality :
  (∀ a b, JSON_stringify a = JSON_stringify b ↔ a = b) ∧
  (∀ a b, key_order a = key_order b →
          (JSON_stringify a = JSON_stringify b ↔ same_fields a b)) ∧
  (∀ r1 r2, JSON_stringify (project_track r1) = JSON_stringify (project_track r2)
            ↔ same_fields (project_track r1) (project_track r2)) ∧
  (∀ order,
     JS.Set_add_all [] (JSON_stringify <$>
       [mkTrack "A" "T" order; mkTrack "A " "T" order; mkTrack "A" "T" order])
     = JSON_stringify <$> [mkTrack "A" "T" order; mkTrack "A " "T" order]).
Proof.
  assert (∀ a b, key_order a = key_order b →
                 (JSON_stringify a = JSON_stringify b ↔ same_fields a b)) as Hfields.
  { intros a b Horder. split.
    - by intros ->%(inj JSON_stringify).
    - intros [Hartist Htitle]. f_equal. destruct a, b; simpl in *. congruence. }
  split_and!.
  - intros a b. split; [apply (inj JSON_stringify)|by intros ->].
  - exact Hfields.
  - intros r1 r2. by apply Hfields.
  - intros order. change (@nil string) with (JSON_stringify <$> @nil Track).
    rewrite Set_add_all_stringify. f_equal. by destruct order.
Qed.

Lemma fingerprint_depends_on_key_order :
  ¬ (∀ a b, JSON_stringify a = JSON_stringify b ↔ same_fields a b).
Proof.
  intros H.
  assert (JSON_stringify Sample.track_AT = JSON_stringify Sample.track_AT_title_first) as Heq.
  { apply H. by split. }
  vm_compute in Heq. discriminate Heq.
Qed.

Lemma fingerprint_equality_witness :
  JSON_stringify Sample.track_AT ≠ JSON_stringify Sample.track_AT_spaced.
Proof.
  intros Heq.
  apply (proj1 (proj1 (proj2 fingerprint_equality) Sample.track_AT
                  Sample.track_AT_spaced eq_refl)) in Heq.
  destruct Heq as [Hartist _]. vm_compute in Hartist. discriminate Hartist.
Defined.

(** C7 (as amended): when a show gets through, the running total grows
    by the number of distinct tracks fetched in this run, the length of
    the list handed to [saveTracklist].  The file written holds at
    least as many tracks, and exactly as many when, and only when,
    every track of the existing file is one of the tracks fetched, as
    an object: same fields in the same property order. *)
Theorem running_total_increment fuel show dir w w' :
  processShow_try fuel show dir w = Returns tt w' →
  ∃ fetched w1 out,
    fetch_show_tracks fuel show w = Returns fetched w1 ∧ NoDup fetched ∧
    runningTotalTracks w' = runningTotalTracks w + length fetched ∧
    files w' !! filePath (show_name show) dir = Some (Json (JTracks out)) ∧
    length fetched ≤ length out ∧
    (length out = length fetched ↔
     existing_tracks w (filePath (show_name show) dir) ⊆ fetched).
Proof.
  intros Hrun.
  destruct (processShow_try_writes _ _ _ _ _ Hrun)
    as (fetched & w1 & out & Hfetch & Hfile & [Hnd Hin]).
  apply processShow_try_returns in Hrun as (fetched' & w1' & Hfetch' & _ & ->).
  rewrite Hfetch in Hfetch'. injection Hfetch' as <- <-.
  pose proof (fetch_show_tracks_NoDup _ _ _ _ _ Hfetch) as Hndf.
  pose proof (fetch_show_tracks_frame fuel show w) as Hframe.
  rewrite Hfetch in Hframe. destruct Hframe as [urls ->].
  assert (fetched ⊆+ out) as Hsub.
  { apply NoDup_submseteq; [done|]. intros t Ht. apply Hin. by right. }
  exists fetched, (set_requests (requests w ++ urls) w), out.
  split_and!; [done|done| |done| |].
  - by rewrite total_checkpointed_world.
  - by apply submseteq_length.
  - split.
    + intros Hlen t Ht.
      assert (fetched ≡ₚ out) as Hperm.
      { apply submseteq_length_Permutation; [done|lia]. }
      rewrite Hperm. apply Hin. by left.
    + intros Hincl. apply Permutation_length, NoDup_Permutation; [done..|].
      intros t. rewrite Hin. split; [intros [?|?]; auto|auto].
Qed.

Lemma running_total_not_merged_count :
  ¬ (∀ fuel show dir w w' out,
       processShow_try fuel show dir w = Returns tt w' →
       files w' !! filePath (show_name show) dir = Some (Json (JTracks out)) →
       runningTotalTracks w' = runningTotalTracks w + length out).
Proof.
  intros H.
  specialize (H 2 Sample.show_foo Sample.folder Sample.world_older_track
                (Sample.foo_processed Sample.world_older_track)
                [Sample.track_BU; Sample.track_AT; Sample.track_AT_spaced]).
  assert (2 = 0 + 3) as Habs; [|discriminate Habs].
  apply H; vm_compute; reflexivity.
Qed.

Lemma running_total_increment_witness :
  ∃ fetched w1 out,
    fetch_show_tracks 2 Sample.show_foo Sample.world_older_track = Returns fetched w1 ∧
    NoDup fetched ∧
    runningTotalTracks (Sample.foo_processed Sample.world_older_track)
    = runningTotalTracks Sample.world_older_track + length fetched ∧
    files (Sample.foo_processed Sample.world_older_track)
      !! filePath (show_name Sample.show_foo) Sample.folder
    = Some (Json (JTracks out)) ∧
    length fetched ≤ length out ∧
    (length out = length fetched ↔
     existing_tracks Sample.world_older_track
       (filePath (show_name Sample.show_foo) Sample.folder) ⊆ fetched).
Proof.
  apply (running_total_increment 2 Sample.show_foo Sample.folder
           Sample.world_older_track (Sample.foo_processed Sample.world_older_track)).
  vm_compute. reflexivity.
Defined.

Lemma plain_outputDir : plain_segment outputDir.
Proof. by split_and!. Qed.

(** ** Runs of whitespace under sanitization *)

Lemma sanitize_from_app in_run s t :
  sanitize_from in_run (s +:+ t)
  = sanitize_from in_run s +:+ sanitize_from (in_run_after in_run s) t.
Proof.
  revert in_run. induction s as [|c s IH]; intros in_run.
  { by rewrite !string_app_empty_l. }
  rewrite string_app_cons. cbn [sanitize_from in_run_after].
  destruct (JS.is_whitespace c); [destruct in_run|];
    by rewrite IH, ?string_app_cons.
Qed.

Lemma in_run_after_last in_run s :
  in_run_after in_run s
  = from_option JS.is_whitespace in_run (last (list_ascii_of_string s)).
Proof.
  revert in_run. induction s as [|c s IH]; intros in_run; [done|].
  cbn [in_run_after list_ascii_of_string]. rewrite IH, last_cons.
  by destruct (last (list_ascii_of_string s)).
Qed.

Lemma sanitize_whitespace in_run s :
  (∀ c, c ∈ list_ascii_of_string s → JS.is_whitespace c = true) →
  sanitize_from true s = "" ∧ (s ≠ "" → in_run_after in_run s = true).
Proof.
  revert in_run. induction s as [|c s IH]; intros in_run Hall; [done|].
  cbn [list_ascii_of_string] in Hall.
  assert (JS.is_whitespace c = true) as Hc by (apply Hall; left).
  destruct (IH true) as [Hrest Hrun]; [intros c' Hc'; apply Hall; by right|].
  cbn [sanitize_from in_run_after]. rewrite Hc. split; [done|]. intros _.
  destruct s; [done|]. by apply Hrun.
Qed.

(** A run of whitespace, wherever it stands, becomes one underscore. *)
Lemma sanitize_run before run after :
  whitespace_run run → ends_outside_whitespace before →
  starts_outside_whitespace after →
  sanitize_spec (before +:+ run +:+ after)
  = sanitize_spec before +:+ "_" +:+ sanitize_spec after.
Proof.
  intros [Hne Hall] Hbefore Hafter. unfold sanitize_spec.
  rewrite !sanitize_from_app.
  assert (in_run_after false before = false) as ->.
  { rewrite in_run_after_last.
    destruct (last (list_ascii_of_string before)) as [c|] eqn:Hlast; [|done].
    by apply Hbefore. }
  destruct (sanitize_whitespace false run Hall) as [Hrest ->]; [|done].
  f_equal.
  assert (sanitize_from false run = "_") as ->.
  { destruct run as [|c run]; [done|]. cbn [sanitize_from].
    cbn [list_ascii_of_string] in Hall. rewrite (Hall c) by left.
    destruct (sanitize_whitespace true run) as [-> _]; [|done].
    intros c' Hc'. apply Hall. by right. }
  f_equal. destruct after as [|c after]; [done|].
  cbn [sanitize_from]. by rewrite (Hafter c after).
Qed.

(** C8 (as amended): for every show name and every mixtape alias that
    is a plain directory name (not empty, neither "." nor "..", without
    a separator), the file [saveTracklist] works on, in the folder
    [main] hands it, is outputDir/alias/name_tracklist.json, where name
    is the show name in lower case with every slash replaced by an
    underscore and every run of whitespace replaced by one underscore:
    a run at the beginning or at the end of the name as well as one
    inside it. *)
Theorem output_file_path :
  (∀ showName alias,
     plain_segment alias →
     filePath showName (Path.join outputDir alias)
     = outputDir +:+ "/" +:+ alias +:+ "/" +:+ sanitize_spec showName
       +:+ "_tracklist.json") ∧
  (∀ before run after,
     whitespace_run run → ends_outside_whitespace before →
     starts_outside_whitespace after →
     sanitize_spec (before +:+ run +:+ after)
     = sanitize_spec before +:+ "_" +:+ sanitize_spec after).
Proof.
  split; [|apply sanitize_run].
  intros showName alias Halias. unfold filePath.
  assert (Path.join outputDir alias = Path.join_segments [outputDir; alias]) as ->.
  { apply (join_plain outputDir [] alias); [|done].
    apply Forall_singleton, plain_outputDir. }
  assert (Path.join (Path.join_segments [outputDir; alias]) (fileName showName)
          = Path.join_segments [outputDir; alias; fileName showName]) as ->.
  { apply (join_plain outputDir [alias] (fileName showName)); [|apply plain_fileName].
    constructor; [apply plain_outputDir|by apply Forall_singleton]. }
  unfold fileName. by rewrite sanitizedShowName_spec.
Qed.

(** With an empty alias [path.join] drops the empty component, and the
    path has one separator where the claimed form has two, whatever
    the sanitized name is. *)
Lemma output_file_path_needs_plain_alias :
  ¬ ∃ sanitized : string → string,
      ∀ showName alias,
        filePath showName (Path.join outputDir alias)
        = outputDir +:+ "/" +:+ alias +:+ "/" +:+ sanitized showName
          +:+ "_tracklist.json".
Proof.
  intros [sanitized H]. specialize (H "Foo" "").
  vm_compute in H. discriminate H.
Qed.

Lemma output_file_path_witness :
  filePath "Solid Steel / Late  Night" (Path.join outputDir "mix")
  = outputDir +:+ "/" +:+ "mix" +:+ "/"
    +:+ sanitize_spec "Solid Steel / Late  Night" +:+ "_tracklist.json"
  ∧ sanitize_spec "Solid Steel / Late  Night" = "solid_steel___late_night"
  ∧ sanitize_spec ("" +:+ " " +:+ "Foo") = sanitize_spec "" +:+ "_" +:+ sanitize_spec "Foo"
  ∧ sanitize_spec ("Foo" +:+ "  " +:+ "") = sanitize_spec "Foo" +:+ "_" +:+ sanitize_spec "".
Proof.
  assert (∀ run, run = " " ∨ run = "  " → whitespace_run run) as Hrun.
  { intros run [->| ->]; (split; [discriminate|]); intros c Hc;
      repeat (apply elem_of_cons in Hc as [->|Hc]; [reflexivity|]);
      by apply elem_of_nil in Hc. }
  split_and!; [|reflexivity| |].
  - apply (proj1 output_file_path "Solid Steel / Late  Night" "mix").
    split_and!; [discriminate..|reflexivity].
  - apply (proj2 output_file_path "" " " "Foo"); [apply Hrun; by left| |].
    + intros c Hc. discriminate Hc.
    + intros c s' [= <- <-]. reflexivity.
  - apply (proj2 output_file_path "Foo" "  " ""); [apply Hrun; by right| |].
    + intros c [= <-]. reflexivity.
    + intros c s' Hs. discriminate Hs.
Defined.

(** C9: a show is taken for a guest show exactly when its path
    contains "/guests/", and that alone selects how its episodes are
    obtained: the one synthetic episode when it does, the paginated
    fetch when it does not. *)
Theorem guest_show_criterion show :
  (isGuestShow show = true ↔ is_substring "/guests/" (show_path show)) ∧
  (is_substring "/guests/" (show_path show) →
   ∀ fuel w,
     fetch_show_tracks fuel show w
     = (allTracks ← visit_episodes [] [guest_episode (show_path show)];
        parse_all allTracks) w) ∧
  (¬ is_substring "/guests/" (show_path show) →
   ∀ fuel w,
     fetch_show_tracks fuel show w
     = (episodes ← fetch_pages fuel (show_path show) 0 [];
        allTracks ← visit_episodes [] episodes;
        parse_all allTracks) w).
Proof.
  split_and!.
  - apply includes_substring.
  - intros Hguest%includes_substring fuel w.
    unfold fetch_show_tracks, fetchAllEpisodes, isGuestShow.
    by rewrite Hguest.
  - intros Hnot fuel w. unfold fetch_show_tracks, fetchAllEpisodes.
    destruct (isGuestShow show) eqn:Hguest; [|done].
    by apply includes_substring in Hguest.
Qed.

Lemma guest_show_criterion_witness :
  fetch_show_tracks 2 (mkShow "Guest" "/shows/guests/somebody")
    (Sample.fresh Sample.env_foo)
  = (allTracks ← visit_episodes [] [guest_episode "/shows/guests/somebody"];
     parse_all allTracks) (Sample.fresh Sample.env_foo).
Proof.
  apply (proj1 (proj2 (guest_show_criterion (mkShow "Guest" "/shows/guests/somebody")))).
  exists "/shows", "somebody". reflexivity.
Defined.

Lemma find_none {A} (P : A → bool) (l : list A) :
  (∀ x, x ∈ l → P x = false) → List.find P l = None.
Proof.
  induction l as [|x l IH]; intros Hall; [done|].
  simpl. rewrite (Hall x) by left. apply IH. intros y Hy. apply Hall. by right.
Qed.

(** C10: an episode without a link of rel "tracklist" causes no
    request and adds no track; the loop goes on with the next
    episode. *)
Theorem episode_without_tracklist_skipped episode :
  (∀ link, link ∈ links episode → rel link ≠ "tracklist") →
  ∀ allTracks rest w,
    visit_episode allTracks episode w = Returns allTracks w ∧
    visit_episodes allTracks (episode :: rest) w = visit_episodes allTracks rest w ∧
    served_tracks (env w) episode = [].
Proof.
  intros Hno allTracks rest w.
  assert (tracklistUrl episode = None) as Hurl.
  { unfold tracklistUrl. rewrite find_none; [done|].
    intros link Hlink. apply bool_decide_eq_false. by apply Hno. }
  assert (visit_episode allTracks episode w = Returns allTracks w) as Hvisit.
  { by rewrite visit_episode_outcome, Hurl. }
  split_and!; [done| |].
  - cbn [visit_episodes]. unfold mbind at 1. unfold M_bind. by rewrite Hvisit.
  - unfold served_tracks. by rewrite Hurl.
Qed.

Lemma episode_without_tracklist_skipped_witness :
  visit_episodes [] [Sample.episode_without_tracklist; Sample.episode2]
    (Sample.fresh Sample.env_foo)
  = visit_episodes [] [Sample.episode2] (Sample.fresh Sample.env_foo).
Proof.
  apply (episode_without_tracklist_skipped Sample.episode_without_tracklist).
  intros link [->|Hin%elem_of_nil]%elem_of_cons; [discriminate|done].
Defined.

(** * Further properties of [index.ts] *)

(** X1: what [JSON.stringify] writes, [JSON.parse] reads back: a string
    literal with its escapes, a track with its property order, and so
    every member of a fingerprint set; [Array.from(set).map(JSON.parse)]
    returns the tracks the fingerprints were made from and never
    throws. *)
Theorem JSON_round_trip :
  (∀ s rest, JS.parse_string_body (JS.quote_chars s +:+ String JS.dquote rest)
             = Some (s, rest)) ∧
  (∀ t, JSON_parse (JSON_stringify t) = Some t) ∧
  (∀ l w, parse_all (JSON_stringify <$> l) w = Returns l w).
Proof.
  split_and!; [apply parse_quote_chars|apply JSON_parse_stringify|
               apply parse_all_stringify].
Qed.

Lemma elem_of_served_tracks e episode t :
  t ∈ served_tracks e episode ↔
  ∃ url results raw,
    tracklistUrl episode = Some url ∧ url ≠ "" ∧
    api_tracklist e url = Some results ∧ raw ∈ results ∧
    t = mkTrack (raw_artist raw) (raw_title raw) ArtistTitle.
Proof.
  unfold served_tracks. destruct (tracklistUrl episode) as [url|].
  2: { split; [by intros ?%elem_of_nil|by intros (? & ? & ? & ? & _)]. }
  case_decide as Hurl.
  { split; [by intros ?%elem_of_nil|]. intros (? & ? & ? & [= <-] & ? & _). done. }
  rewrite list_elem_of_fmap. split.
  - intros (raw & -> & Hraw). destruct (api_tracklist e url) as [results|] eqn:Hres.
    + by exists url, results, raw.
    + by apply elem_of_nil in Hraw.
  - intros (? & results & raw & [= <-] & _ & -> & Hraw & ->). by exists raw.
Qed.

(** X2: when the tracks of a show are fetched, the list handed on holds
    no track twice, and holds exactly the tracks of the tracklists that
    the episodes' first [tracklist] links (with a non-empty href) point
    at, each reduced to artist and title. *)
Theorem fetched_tracks_characterised fuel show w fetched w' :
  fetch_show_tracks fuel show w = Returns fetched w' →
  ∃ episodes w1,
    fetchAllEpisodes fuel (show_path show) (isGuestShow show) w = Returns episodes w1 ∧
    NoDup fetched ∧
    ∀ t, t ∈ fetched ↔
         ∃ episode url results raw,
           episode ∈ episodes ∧ tracklistUrl episode = Some url ∧ url ≠ "" ∧
           api_tracklist (env w) url = Some results ∧ raw ∈ results ∧
           t = mkTrack (raw_artist raw) (raw_title raw) ArtistTitle.
Proof.
  intros Hfetch. pose proof (fetch_show_tracks_NoDup _ _ _ _ _ Hfetch) as Hnd.
  apply fetch_show_tracks_returns in Hfetch as (episodes & w1 & Heps & ->).
  exists episodes, w1. split_and!; [done..|].
  intros t. rewrite (proj2 (merge_dedup_union [] _) t), list_elem_of_bind.
  setoid_rewrite elem_of_served_tracks. split.
  - intros [?%elem_of_nil|(episode & (url & results & raw & ?) & ?)]; [done|].
    exists episode, url, results, raw. tauto.
  - intros (episode & url & results & raw & ? & ?). right. exists episode.
    split; [|done]. by exists url, results, raw.
Qed.

Lemma fetched_tracks_characterised_witness :
  ∃ episodes w1,
    fetchAllEpisodes 2 (show_path Sample.show_foo) (isGuestShow Sample.show_foo)
      (Sample.fresh Sample.env_foo) = Returns episodes w1 ∧
    NoDup [Sample.track_AT; Sample.track_AT_spaced] ∧
    ∀ t, t ∈ [Sample.track_AT; Sample.track_AT_spaced] ↔
         ∃ episode url results raw,
           episode ∈ episodes ∧ tracklistUrl episode = Some url ∧ url ≠ "" ∧
           api_tracklist (env (Sample.fresh Sample.env_foo)) url = Some results ∧
           raw ∈ results ∧
           t = mkTrack (raw_artist raw) (raw_title raw) ArtistTitle.
Proof.
  apply (fetched_tracks_characterised 2 Sample.show_foo (Sample.fresh Sample.env_foo)
           [Sample.track_AT; Sample.track_AT_spaced]
           (set_requests [episodes_url "/shows/foo" 0; episodes_url "/shows/foo" 12;
                          "/e/1/tracklist"; "/e/2/tracklist"]
              (Sample.fresh Sample.env_foo))).
  vm_compute. reflexivity.
Defined.

(** ** What can run on, and what can throw *)

Lemma parse_all_not_diverges fingerprints w : parse_all fingerprints w ≠ Diverges.
Proof.
  revert w. induction fingerprints as [|fp rest IH]; intros w; [done|].
  cbn [parse_all]. destruct (JSON_parse fp); [|done].
  unfold mbind, M_bind. specialize (IH w). by destruct (parse_all rest w).
Qed.

Lemma visit_episodes_not_diverges episodes allTracks w :
  visit_episodes allTracks episodes w ≠ Diverges.
Proof.
  revert allTracks w. induction episodes as [|episode rest IH]; intros allTracks w; [done|].
  cbn [visit_episodes]. unfold mbind at 1. unfold M_bind.
  rewrite visit_episode_outcome.
  destruct (tracklistUrl episode) as [url|]; [|apply IH].
  case_decide; [apply IH|]. destruct (api_tracklist _ _); [apply IH|done].
Qed.

Lemma fetch_show_tracks_diverges fuel show w :
  fetch_show_tracks fuel show w = Diverges →
  isGuestShow show = false ∧ fetch_pages fuel (show_path show) 0 [] w = Diverges.
Proof.
  unfold fetch_show_tracks, fetchAllEpisodes. unfold mbind at 1 2. unfold M_bind.
  destruct (isGuestShow show).
  - unfold mret, M_ret. intros H. exfalso. revert H.
    pose proof (visit_episodes_not_diverges [guest_episode (show_path show)] [] w) as Hv.
    destruct (visit_episodes _ _ w) as [r w1| |]; [|done..].
    apply parse_all_not_diverges.
  - destruct (fetch_pages _ _ _ _ w) as [episodes w1|e w1|]; [|done..].
    intros H. exfalso. revert H.
    pose proof (visit_episodes_not_diverges episodes [] w1) as Hv.
    destruct (visit_episodes _ _ w1) as [r w2| |]; [|done..].
    apply parse_all_not_diverges.
Qed.

(** X3: [processShow] never throws, whatever the upstream and the file
    system do: it returns, unless the pagination of a show that is not
    a guest show runs on. *)
Theorem processShow_catches_everything fuel show dir w :
  (∀ e w', processShow fuel show dir w ≠ Throws e w') ∧
  ((∃ w', processShow fuel show dir w = Returns tt w') ∨
   (processShow fuel show dir w = Diverges ∧ isGuestShow show = false ∧
    fetch_pages fuel (show_path show) 0 [] w = Diverges)).
Proof.
  split; [apply processShow_not_throws|].
  rewrite processShow_outcome.
  destruct (fetch_show_tracks fuel show w) as [fetched w1|e w1|] eqn:Hfetch; [eauto..|].
  right. by apply fetch_show_tracks_diverges in Hfetch as [? ?].
Qed.

Lemma processShow_catches_everything_witness :
  ∃ w', processShow 2 Sample.show_bar Sample.folder (Sample.fresh Sample.env_foo)
        = Returns tt w'.
Proof.
  destruct (proj2 (processShow_catches_everything 2 Sample.show_bar Sample.folder
                     (Sample.fresh Sample.env_foo))) as [Hreturns|[Hruns _]].
  - exact Hreturns.
  - vm_compute in Hruns. discriminate Hruns.
Defined.

Lemma main_mixtapes_throws fuel ms w e w' :
  main_mixtapes fuel ms w = Throws e w' →
  ∃ mixtape, mixtape ∈ ms ∧
    e = WriteFailed (Path.join outputDir (mixtape_alias mixtape)) ∧
    mkdir_ok (env w) (Path.join outputDir (mixtape_alias mixtape)) = false.
Proof.
  revert w. induction ms as [|mixtape rest IH]; intros w; [done|].
  rewrite main_mixtapes_cons.
  destruct (mkdir_ok _ _) eqn:Hmk.
  - destruct (main_credits _ _ _ w) as [[] w1|e1 w1|] eqn:Hcs; [| |done].
    + intros (m & Hm & -> & Hno)%IH. exists m. split_and!; [by right|done|].
      apply main_credits_run in Hcs as (<- & _). done.
    + by destruct (main_credits_not_throws _ _ _ _ _ _ Hcs).
  - intros [= <- <-]. exists mixtape. split_and!; [by left|done..].
Qed.

(** X4: with a [checkpoint.json] that is absent, unparseable or holds
    an object (the worlds of the model), the only exception that leaves
    the loops of [main] is the failure to create the folder of a
    mixtape of the catalog; when every folder can be created [main]
    does not throw. *)
Theorem main_throws_only_for_mkdir fuel inputData w e w' :
  main fuel inputData w = Throws e w' →
  ∃ mixtape, mixtape ∈ inputData ∧
    e = WriteFailed (Path.join outputDir (mixtape_alias mixtape)) ∧
    mkdir_ok (env w) (Path.join outputDir (mixtape_alias mixtape)) = false.
Proof.
  unfold main, load_checkpoint. munfold. simpl.
  intros H. apply main_mixtapes_throws in H. exact H.
Qed.

Lemma main_throws_only_for_mkdir_witness :
  ∃ mixtape, mixtape ∈ Sample.catalog ∧
    WriteFailed "nts_tracklists/mix"
    = WriteFailed (Path.join outputDir (mixtape_alias mixtape)) ∧
    mkdir_ok (env (Sample.fresh Scenario.env_no_mkdir))
      (Path.join outputDir (mixtape_alias mixtape)) = false.
Proof.
  apply (main_throws_only_for_mkdir 2 Sample.catalog (Sample.fresh Scenario.env_no_mkdir)
           (WriteFailed "nts_tracklists/mix") (Sample.fresh Scenario.env_no_mkdir)).
  vm_compute. reflexivity.
Defined.

(** ** Flags and files over a whole run *)

Lemma processShow_flagged fuel show dir name w w' :
  processShow fuel show dir w = Returns tt w' → flagged name w → flagged name w'.
Proof.
  intros (_ & _ & Hck & Hjson)%processShow_step [Hmem Hfile].
  assert (checkpoint w' !! name = Some true) as Hmem'.
  { destruct Hck as [->| ->]; [done|]. by apply checkpoint_assign_marked. }
  split; [done|]. by destruct Hjson as [->| ->].
Qed.

Lemma main_credits_flagged fuel dir cs name w w' :
  main_credits fuel dir cs w = Returns tt w' → flagged name w → flagged name w'.
Proof.
  revert w. induction cs as [|credit rest IH]; intros w; [by intros [= <-]|].
  rewrite main_credits_cons. destruct (checkpoint_truthy _ _); [apply IH|].
  destruct (processShow fuel credit dir w) as [[] w1|e1 w1|] eqn:Hstep; [|done..].
  intros Hrest Hflag. eapply IH; [done|]. by eapply processShow_flagged.
Qed.

Lemma main_mixtapes_flagged fuel ms name w w' :
  final (main_mixtapes fuel ms w) = Some w' → flagged name w → flagged name w'.
Proof.
  revert w. induction ms as [|mixtape rest IH]; intros w; [by intros [= <-]|].
  rewrite main_mixtapes_cons. destruct (mkdir_ok _ _); [|by intros [= <-]].
  destruct (main_credits _ _ _ w) as [[] w1|e1 w1|] eqn:Hcs; [| |done].
  - intros Hrest Hflag. eapply IH; [done|]. by eapply main_credits_flagged.
  - by destruct (main_credits_not_throws _ _ _ _ _ _ Hcs).
Qed.

(** X5: a run never takes a flag back: a show that [checkpoint.json]
    marks done when [main] starts is marked done in the file, and in
    the object in memory, when [main] ends, however the run went. *)
Theorem checkpoint_never_forgets fuel inputData w w' name :
  final (main fuel inputData w) = Some w' →
  default ∅ (checkpoint_json w) !! name = Some true →
  default ∅ (checkpoint_json w') !! name = Some true ∧
  checkpoint w' !! name = Some true.
Proof.
  unfold main, load_checkpoint. munfold. simpl. intros Hrun Hmark.
  apply (main_mixtapes_flagged _ _ name) in Hrun as [? ?]; [done|].
  by split.
Qed.

Lemma checkpoint_never_forgets_witness :
  default ∅ (checkpoint_json (Sample.run Sample.world_foo_done)) !! "Foo" = Some true ∧
  checkpoint (Sample.run Sample.world_foo_done) !! "Foo" = Some true.
Proof.
  apply (checkpoint_never_forgets 2 Sample.catalog Sample.world_foo_done);
    vm_compute; reflexivity.
Defined.

(** X6: a run never loses what the output tree holds: no file
    disappears, a file holding an array of tracks holds afterwards an
    array with all of them, and a file holding other JSON is left as it
    is. *)
Theorem output_tree_never_shrinks fuel inputData w w' p :
  final (main fuel inputData w) = Some w' →
  (is_Some (files w !! p) → is_Some (files w' !! p)) ∧
  (∀ l, files w !! p = Some (Json (JTracks l)) →
        ∃ out, files w' !! p = Some (Json (JTracks out)) ∧ l ⊆ out) ∧
  (files w !! p = Some (Json JOther) → files w' !! p = Some (Json JOther)).
Proof.
  unfold main, load_checkpoint. munfold. simpl.
  intros (_ & Hgrows & _)%main_mixtapes_run. simpl in Hgrows.
  destruct (Hgrows p) as [->|(out & Hout & _ & Hno & Hsub)]; [|rewrite Hout].
  - split_and!; [done| |done]. intros l ->. by exists l.
  - split_and!; [by eauto| |done]. intros l Hl. exists out. split; [done|by apply Hsub].
Qed.

Lemma output_tree_never_shrinks_witness :
  ∃ out, files (Sample.run Sample.world_older_track) !! Sample.foo_json
         = Some (Json (JTracks out)) ∧ [Sample.track_BU] ⊆ out.
Proof.
  apply (proj1 (proj2 (output_tree_never_shrinks 2 Sample.catalog
                         Sample.world_older_track
                         (Sample.run Sample.world_older_track) Sample.foo_json
                         ltac:(vm_compute; reflexivity)))).
  vm_compute. reflexivity.
Defined.

(** X7: [saveTracklist] throws in two cases only, and changes nothing
    when it does: the existing file is JSON that is not an array (a
    TypeError, from [existingTracks.map]), or the file cannot be
    written.  A missing or unparseable file is no error. *)
Theorem saveTracklist_throws showName tracks dir w e w' :
  saveTracklist showName tracks dir w = Throws e w' ↔
  w' = w ∧
  ((files w !! filePath showName dir = Some (Json JOther) ∧ e = TypeError) ∨
   (files w !! filePath showName dir ≠ Some (Json JOther) ∧
    writable (env w) (filePath showName dir) = false ∧
    e = WriteFailed (filePath showName dir))).
Proof.
  rewrite saveTracklist_outcome. case_decide as Hother.
  - split; [intros [= <- <-]; auto|]. intros [-> [[_ ->]|[? _]]]; done.
  - destruct (writable _ _) eqn:Hw.
    + split; [done|]. intros [_ [[? _]|(_ & ? & _)]]; done.
    + split; [intros [= <- <-]; auto|]. intros [-> [[? _]|(_ & _ & ->)]]; done.
Qed.

Lemma saveTracklist_throws_witness :
  saveTracklist "Foo" [Sample.track_AT] Sample.folder Scenario.world_not_an_array
  = Throws TypeError Scenario.world_not_an_array.
Proof.
  apply (proj2 (saveTracklist_throws "Foo" [Sample.track_AT] Sample.folder
                  Scenario.world_not_an_array TypeError Scenario.world_not_an_array)).
  split; [reflexivity|]. left. split; [vm_compute|]; reflexivity.
Defined.

(** X8: when the output file was written and it is [checkpoint.json]
    that cannot be written, the exception is swallowed like any other,
    but the counter has been raised and the flag set in the object in
    memory, so the rest of this run skips shows of that name while the
    file on disk does not know of it. *)
Theorem checkpoint_write_failure fuel show dir w fetched w1 w2 :
  fetch_show_tracks fuel show w = Returns fetched w1 →
  saveTracklist (show_name show) fetched dir w1 = Returns tt w2 →
  writable (env w) "checkpoint.json" = false →
  ∃ w', processShow fuel show dir w = Returns tt w' ∧
        files w' = files w2 ∧
        runningTotalTracks w' = runningTotalTracks w + length fetched ∧
        checkpoint_truthy (checkpoint w') (show_name show) = true ∧
        checkpoint_json w' = checkpoint_json w.
Proof.
  intros Hfetch Hsave Hck. rewrite processShow_outcome, Hfetch.
  pose proof (fetch_show_tracks_frame fuel show w) as Hframe.
  rewrite Hfetch in Hframe. destruct Hframe as [urls ->].
  revert Hsave. rewrite saveTracklist_outcome. unfold after_fetch.
  case_decide; [done|]. destruct (writable _ (filePath _ _)); [|done].
  intros [= <-]. eexists. split; [done|].
  unfold checkpointed_world. simpl. rewrite Hck. simpl.
  split_and!; [done..| |done].
  by rewrite checkpoint_truthy_assign, bool_decide_eq_true_2, orb_true_r.
Qed.

Lemma checkpoint_write_failure_witness :
  ∃ w', processShow 2 Sample.show_foo Sample.folder
          (Sample.fresh Scenario.env_readonly_checkpoint) = Returns tt w' ∧
        files w' = files (Scenario.foo_saved Scenario.env_readonly_checkpoint) ∧
        runningTotalTracks w'
        = runningTotalTracks (Sample.fresh Scenario.env_readonly_checkpoint)
          + length [Sample.track_AT; Sample.track_AT_spaced] ∧
        checkpoint_truthy (checkpoint w') (show_name Sample.show_foo) = true ∧
        checkpoint_json w'
        = checkpoint_json (Sample.fresh Scenario.env_readonly_checkpoint).
Proof.
  apply (checkpoint_write_failure 2 Sample.show_foo Sample.folder
           (Sample.fresh Scenario.env_readonly_checkpoint)
           [Sample.track_AT; Sample.track_AT_spaced]
           (Scenario.foo_fetched Scenario.env_readonly_checkpoint)
           (Scenario.foo_saved Scenario.env_readonly_checkpoint));
    vm_compute; reflexivity.
Defined.

Lemma main_credits_skip_truthy fuel dir credit rest w :
  checkpoint_truthy (checkpoint w) (show_name credit) = true →
  main_credits fuel dir (credit :: rest) w = main_credits fuel dir rest w.
Proof. intros H. by rewrite main_credits_cons, H. Qed.

(** X9: [checkpoint[credit.name]] also finds what every object inherits:
    a show named like a property of [Object.prototype] ("constructor",
    "toString", ...) is passed over by [main] although the checkpoint
    has no entry for it; started without a checkpoint file, [main]
    requests nothing and writes nothing for a catalog of such shows. *)
Theorem inherited_name_is_skipped fuel alias cs w w' :
  checkpoint_json w = None →
  (∀ credit, credit ∈ cs → show_name credit ∈ Object_prototype_keys) →
  final (main fuel [mkMixtape alias cs] w) = Some w' →
  requests w' = requests w ∧ files w' = files w ∧ checkpoint_json w' = None.
Proof.
  intros Hjson Hnames.
  assert (∀ v, checkpoint v = ∅ →
            main_credits fuel (Path.join outputDir alias) cs v = Returns tt v) as Hskip.
  { induction cs as [|credit rest IH]; intros v Hv; [done|].
    rewrite main_credits_skip_truthy.
    - apply IH; [|done]. intros c Hc. apply Hnames. by right.
    - unfold checkpoint_truthy. rewrite Hv, lookup_empty.
      apply bool_decide_eq_true_2, Hnames. by left. }
  unfold main, load_checkpoint. munfold. rewrite main_mixtapes_cons.
  destruct (mkdir_ok _ _).
  - cbn [mixtape_alias credits]. rewrite Hskip by (simpl; by rewrite Hjson).
    intros [= <-]. by rewrite <- Hjson.
  - intros [= <-]. by rewrite <- Hjson.
Qed.

Lemma inherited_name_is_skipped_witness :
  requests (default (Sample.fresh Sample.env_foo)
              (final (main 2 [mkMixtape "mix" [Scenario.show_constructor]]
                        (Sample.fresh Sample.env_foo))))
  = requests (Sample.fresh Sample.env_foo) ∧
  files (default (Sample.fresh Sample.env_foo)
           (final (main 2 [mkMixtape "mix" [Scenario.show_constructor]]
                     (Sample.fresh Sample.env_foo))))
  = files (Sample.fresh Sample.env_foo) ∧
  checkpoint_json (default (Sample.fresh Sample.env_foo)
           (final (main 2 [mkMixtape "mix" [Scenario.show_constructor]]
                     (Sample.fresh Sample.env_foo)))) = None.
Proof.
  apply (inherited_name_is_skipped 2 "mix" [Scenario.show_constructor]
           (Sample.fresh Sample.env_foo)).
  - reflexivity.
  - intros credit ->%list_elem_of_singleton. vm_compute. by left.
  - vm_compute. reflexivity.
Defined.

(** ** More on the pagination *)

(** X10: against an upstream that has a non-empty page at every offset
    the loop of [fetchAllEpisodes] has no way out: however many turns
    are followed, it has neither returned nor thrown. *)
Theorem fetchAllEpisodes_endless fuel showPath w :
  (∀ k, ∃ page, api_episodes (env w) (episodes_url showPath (k * limit)) = Some page
                ∧ page ≠ []) →
  fetchAllEpisodes fuel showPath false w = Diverges.
Proof. intros Hall. by apply (fetch_pages_runs_on fuel showPath 0). Qed.

Lemma fetchAllEpisodes_endless_witness :
  fetchAllEpisodes 1000 "/shows/foo" false (Sample.fresh Scenario.env_endless) = Diverges.
Proof.
  apply (fetchAllEpisodes_endless 1000 "/shows/foo" (Sample.fresh Scenario.env_endless)).
  intros k. exists [Sample.episode2]. split; [reflexivity|discriminate].
Defined.

Lemma fetch_pages_throws fuel showPath k allEpisodes w e w' :
  fetch_pages fuel showPath (k * limit) allEpisodes w = Throws e w' ↔
  ∃ n, n < fuel ∧
       (∀ i, i < n → ∃ page,
          api_episodes (env w) (episodes_url showPath ((k + i) * limit)) = Some page
          ∧ page ≠ []) ∧
       api_episodes (env w) (episodes_url showPath ((k + n) * limit)) = None ∧
       e = RequestFailed (episodes_url showPath ((k + n) * limit)) ∧
       w' = set_requests (requests w ++ page_urls_from showPath k (S n)) w.
Proof.
  revert k allEpisodes w e w'.
  induction fuel as [|fuel IH]; intros k allEpisodes w e w'.
  { split; [done|]. intros (? & ? & _). lia. }
  rewrite fetch_pages_unfold.
  destruct (api_episodes (env w) (episodes_url showPath (k * limit)))
    as [[|episode page]|] eqn:Hpage; simpl.
  - split; [done|]. intros ([|n] & _ & Hpages & Hnone & _).
    + rewrite Nat.add_0_r in Hnone. congruence.
    + destruct (Hpages 0) as (page & Hp & Hne); [lia|].
      rewrite Nat.add_0_r in Hp. congruence.
  - rewrite next_offset, IH. cbn [env requests set_requests]. split.
    + intros (n & Hn & Hpages & Hnone & -> & ->). exists (S n). split_and!.
      * lia.
      * intros [|i] Hi.
        -- rewrite Nat.add_0_r. by eauto.
        -- replace (k + S i) with (S k + i) by lia. apply Hpages. lia.
      * by replace (k + S n) with (S k + n) by lia.
      * by replace (k + S n) with (S k + n) by lia.
      * unfold page_urls_from. cbn [seq fmap list_fmap]. by rewrite <- app_assoc.
    + intros ([|n] & Hn & Hpages & Hnone & -> & ->).
      * rewrite Nat.add_0_r in Hnone. congruence.
      * exists n. split_and!.
        -- lia.
        -- intros i Hi. replace (S k + i) with (k + S i) by lia. apply Hpages. lia.
        -- by replace (S k + n) with (k + S n) by lia.
        -- by replace (S k + n) with (k + S n) by lia.
        -- unfold page_urls_from. cbn [seq fmap list_fmap]. by rewrite <- app_assoc.
  - split.
    + intros [= <- <-]. exists 0. rewrite Nat.add_0_r.
      split_and!; [lia|intros; lia|done..].
    + intros ([|n] & _ & Hpages & _ & -> & ->).
      * by rewrite Nat.add_0_r.
      * destruct (Hpages 0) as (page & Hp & _); [lia|].
        rewrite Nat.add_0_r in Hp. congruence.
Qed.

(** X11: [fetchAllEpisodes] throws exactly when, after some number of
    non-empty pages, no list of results can be had for the next page
    (its request fails, or its reply has no [results]); the pages
    fetched so far are dropped, and the requests made are those for the
    offsets 0, 12, ... up to that of this page. *)
Theorem fetchAllEpisodes_throws fuel showPath w w' :
  (∃ e, fetchAllEpisodes fuel showPath false w = Throws e w') ↔
  ∃ n, n < fuel ∧
       (∀ i, i < n → ∃ page,
          api_episodes (env w) (episodes_url showPath (i * limit)) = Some page
          ∧ page ≠ []) ∧
       api_episodes (env w) (episodes_url showPath (n * limit)) = None ∧
       w' = set_requests (requests w ++ page_urls showPath (S n)) w.
Proof.
  unfold fetchAllEpisodes. change 0 with (0 * limit). split.
  - intros [e (n & Hn & Hpages & Hnone & _ & Hw)%fetch_pages_throws]. by exists n.
  - intros (n & Hn & Hpages & Hnone & Hw).
    exists (RequestFailed (episodes_url showPath (n * limit))).
    apply fetch_pages_throws. by exists n.
Qed.

Lemma fetchAllEpisodes_throws_witness :
  ∃ e,
    fetchAllEpisodes 5 "/shows/foo" false (Sample.fresh Scenario.env_second_page_fails)
    = Throws e
        (set_requests
           (requests (Sample.fresh Scenario.env_second_page_fails)
              ++ page_urls "/shows/foo" 2)
           (Sample.fresh Scenario.env_second_page_fails)).
Proof.
  apply (proj2 (fetchAllEpisodes_throws 5 "/shows/foo"
                  (Sample.fresh Scenario.env_second_page_fails) _)).
  exists 1. split_and!; [lia| |reflexivity..].
  intros [|i] Hi; [|lia]. exists Sample.full_page. split; [reflexivity|discriminate].
Defined.

(** X15: the tracks of a guest show cost one request, to [baseUrl], the
    show's path and "/tracklist": when it is answered, the tracks are
    its entries reduced to artist and title, each kept once, in the
    order they first come; when it fails, so does the fetch. *)
Theorem guest_show_single_request fuel show w :
  isGuestShow show = true →
  fetch_show_tracks fuel show w =
  match api_tracklist (env w) (baseUrl +:+ show_path show +:+ "/tracklist") with
  | Some results =>
      Returns (merge [] (project_track <$> results))
        (set_requests (requests w ++ [baseUrl +:+ show_path show +:+ "/tracklist"]) w)
  | None =>
      Throws (RequestFailed (baseUrl +:+ show_path show +:+ "/tracklist"))
        (set_requests (requests w ++ [baseUrl +:+ show_path show +:+ "/tracklist"]) w)
  end.
Proof.
  intros Hguest. unfold fetch_show_tracks, fetchAllEpisodes. rewrite Hguest.
  unfold mbind at 1 2. unfold M_bind, mret, M_ret.
  cbn [visit_episodes]. unfold mbind at 1. unfold M_bind.
  rewrite visit_episode_outcome.
  assert (tracklistUrl (guest_episode (show_path show))
          = Some (baseUrl +:+ show_path show +:+ "/tracklist")) as -> by done.
  rewrite decide_False by done.
  destruct (api_tracklist _ _) as [results|]; [|done].
  unfold mret, M_ret. change (@nil string) with (JSON_stringify <$> @nil Track).
  by rewrite Set_add_all_stringify, parse_all_stringify.
Qed.

Lemma guest_show_single_request_witness :
  fetch_show_tracks 0 Scenario.show_guest (Sample.fresh Scenario.env_readonly_checkpoint)
  = Returns [mkTrack "G" "H" ArtistTitle]
      (set_requests [baseUrl +:+ "/shows/guests/somebody" +:+ "/tracklist"]
         (Sample.fresh Scenario.env_readonly_checkpoint)).
Proof.
  rewrite (guest_show_single_request 0 Scenario.show_guest
             (Sample.fresh Scenario.env_readonly_checkpoint));
    vm_compute; reflexivity.
Defined.

(** ** The sanitized name *)

Lemma toLowerCase_char_idemp c :
  JS.toLowerCase_char (JS.toLowerCase_char c) = JS.toLowerCase_char c.
Proof. by destruct c as [[][][][][][][][]]. Qed.

Lemma sanitize_from_clean in_run s c :
  c ∈ list_ascii_of_string (sanitize_from in_run s) → clean_char c.
Proof.
  revert in_run. induction s as [|d s IH]; intros in_run; [by intros ?%elem_of_nil|].
  cbn [sanitize_from]. destruct (JS.is_whitespace d) eqn:Hws.
  - destruct in_run; [apply IH|]. cbn [list_ascii_of_string].
    intros [->|?]%elem_of_cons; [done|by eapply IH].
  - cbn [list_ascii_of_string]. intros [->|?]%elem_of_cons; [|by eapply IH].
    destruct (Ascii.eqb d JS.slash) eqn:Hslash; [done|]. split_and!.
    + by rewrite is_whitespace_toLowerCase.
    + intros Heq. rewrite <- slash_toLowerCase, Heq in Hslash. done.
    + apply toLowerCase_char_idemp.
Qed.

Lemma sanitize_from_fixed in_run s :
  (∀ c, c ∈ list_ascii_of_string s → clean_char c) → sanitize_from in_run s = s.
Proof.
  revert in_run. induction s as [|d s IH]; intros in_run Hall; [done|].
  destruct (Hall d) as (Hws & Hslash & Hlow); [by left|].
  cbn [sanitize_from]. rewrite Hws, (proj2 (Ascii.eqb_neq _ _) Hslash), Hlow.
  f_equal. apply IH. intros c Hc. apply Hall. by right.
Qed.

(** X12: whatever the show name, its sanitized form holds no
    whitespace, no slash and no capital letter, so that the file name
    made from it is a single path component; and sanitizing a sanitized
    name changes nothing. *)
Theorem sanitizedShowName_clean showName :
  (∀ c, c ∈ list_ascii_of_string (sanitizedShowName showName) →
        JS.is_whitespace c = false ∧ c ≠ JS.slash ∧ JS.toLowerCase_char c = c) ∧
  sanitizedShowName (sanitizedShowName showName) = sanitizedShowName showName ∧
  plain_segment (fileName showName).
Proof.
  rewrite !sanitizedShowName_spec. split_and!.
  - intros c. apply sanitize_from_clean.
  - apply sanitize_from_fixed. intros c. apply sanitize_from_clean.
  - apply plain_fileName.
Qed.

Lemma sanitizedShowName_clean_witness :
  sanitizedShowName (sanitizedShowName "Solid Steel / Late  Night")
  = sanitizedShowName "Solid Steel / Late  Night" ∧
  plain_segment (fileName "../../etc/passwd").
Proof.
  split.
  - apply (proj1 (proj2 (sanitizedShowName_clean "Solid Steel / Late  Night"))).
  - apply (proj2 (proj2 (sanitizedShowName_clean "../../etc/passwd"))).
Defined.

(** ** The order of the tracks in a file *)




(** ** The flag and the file *)

(** X14: a flag is set only over a complete file: when a call of
    [processShow] turns the checkpoint entry of its show from not done
    to done, the tracks of the show were fetched, and the show's file
    holds all of them in an array without repetition. *)
Theorem flag_means_file_written fuel show dir w w' :
  processShow fuel show dir w = Returns tt w' →
  checkpoint_truthy (checkpoint w) (show_name show) = false →
  checkpoint_truthy (checkpoint w') (show_name show) = true →
  ∃ fetched w1 out,
    fetch_show_tracks fuel show w = Returns fetched w1 ∧
    files w' !! filePath (show_name show) dir = Some (Json (JTracks out)) ∧
    NoDup out ∧ fetched ⊆ out.
Proof.
  rewrite processShow_outcome.
  pose proof (fetch_show_tracks_frame fuel show w) as Hframe.
  destruct (fetch_show_tracks fuel show w) as [fetched w1|e w1|]; [| |done].
  - destruct Hframe as [urls ->]. intros [= <-] Hbefore Hafter.
    destruct (after_fetch_cases show dir fetched
                (set_requests (requests w ++ urls) w)) as [[Heq _]|(_ & _ & Heq)];
      rewrite Heq in Hafter |- *.
    { simpl in Hafter. congruence. }
    eexists fetched, _, _. split; [done|].
    rewrite files_checkpointed_world. unfold saved_world. cbn [files set_files].
    rewrite lookup_insert_eq. split_and!; [done|apply merge_dedup_union|].
    intros t Ht. apply merge_dedup_union. by right.
  - destruct Hframe as [urls ->]. intros [= <-] Hbefore Hafter.
    simpl in Hafter. congruence.
Qed.

Lemma flag_means_file_written_witness :
  ∃ fetched w1 out,
    fetch_show_tracks 2 Sample.show_foo Sample.world_older_track = Returns fetched w1 ∧
    files (Sample.foo_processed Sample.world_older_track)
      !! filePath (show_name Sample.show_foo) Sample.folder
    = Some (Json (JTracks out)) ∧
    NoDup out ∧ fetched ⊆ out.
Proof.
  apply (flag_means_file_written 2 Sample.show_foo Sample.folder
           Sample.world_older_track (Sample.foo_processed Sample.world_older_track));
    vm_compute; reflexivity.
Defined.

(** ** A catalog that is done *)

(** X16: when the checkpoint file treats every show of the catalog as
    done, a run requests nothing, writes no output file and leaves the
    checkpoint file as it is. *)
Theorem finished_catalog_is_left_alone fuel inputData w w' :
  (∀ mixtape credit, mixtape ∈ inputData → credit ∈ credits mixtape →
     checkpoint_truthy (default ∅ (checkpoint_json w)) (show_name credit) = true) →
  final (main fuel inputData w) = Some w' →
  requests w' = requests w ∧ files w' = files w ∧
  checkpoint_json w' = checkpoint_json w.
Proof.
  intros Hdone. unfold main, load_checkpoint. munfold.
  assert (∀ dir cs v,
            (∀ credit, credit ∈ cs →
               checkpoint_truthy (checkpoint v) (show_name credit) = true) →
            main_credits fuel dir cs v = Returns tt v) as Hskip.
  { intros dir cs. induction cs as [|credit rest IH]; intros v Hv; [done|].
    rewrite main_credits_skip_truthy by (apply Hv; by left).
    apply IH. intros c Hc. apply Hv. by right. }
  assert (∀ ms v v',
            (∀ mixtape credit, mixtape ∈ ms → credit ∈ credits mixtape →
               checkpoint_truthy (checkpoint v) (show_name credit) = true) →
            final (main_mixtapes fuel ms v) = Some v' → v' = v) as Hall.
  { intros ms. induction ms as [|mixtape rest IH]; intros v v' Hv; [by intros [= <-]|].
    rewrite main_mixtapes_cons. destruct (mkdir_ok _ _); [|by intros [= <-]].
    rewrite Hskip by (intros c Hc; eapply Hv; [by left|done]).
    apply IH. intros m c Hm Hc. eapply Hv; [by right|done]. }
  intros Hrun. apply Hall in Hrun as ->; [done|]. exact Hdone.
Qed.

Lemma finished_catalog_is_left_alone_witness :
  requests (Sample.run Scenario.world_all_done) = requests Scenario.world_all_done ∧
  files (Sample.run Scenario.world_all_done) = files Scenario.world_all_done ∧
  checkpoint_json (Sample.run Scenario.world_all_done)
  = checkpoint_json Scenario.world_all_done.
Proof.
  apply (finished_catalog_is_left_alone 2 Sample.catalog Scenario.world_all_done).
  - intros mixtape credit ->%list_elem_of_singleton
      [->|[->|?%elem_of_nil]%elem_of_cons]%elem_of_cons;
      [vm_compute; reflexivity..|done].
  - vm_compute. reflexivity.
Defined.

(** * Properties of [count.ts] *)

Module CountFacts.
Import Count.

Lemma Dirent_nested_ind (P : Dirent → Prop) :
  (∀ name content, P (DFile name content)) →
  (∀ name entries, Forall P entries → P (DDir name entries)) →
  (∀ name, P (DOther name)) →
  ∀ entry, P entry.
Proof.
  intros Hfile Hdir Hother. fix IH 1. intros [name content|name entries|name].
  - apply Hfile.
  - apply Hdir. induction entries as [|e es IHes]; constructor; [apply IH|apply IHes].
  - apply Hother.
Qed.

Lemma visit_entry_dir currentPath name entries t :
  visit_entry currentPath (DDir name entries) t
  = traverseDirectory (Path.join currentPath name) entries t.
Proof.
  cbn [visit_entry dirent_name]. revert t.
  induction entries as [|e es IH]; intros t; [done|].
  cbn [traverseDirectory]. destruct (visit_entry _ e t); [apply IH|done..].
Qed.

Lemma json_files_of_dir currentPath name entries :
  json_files_of currentPath (DDir name entries)
  = json_files (Path.join currentPath name) entries.
Proof.
  cbn [json_files_of dirent_name].
  induction entries as [|e es IH]; [done|]. cbn [json_files]. by rewrite IH.
Qed.

Lemma tally_files_app fs1 fs2 t :
  tally_files (fs1 ++ fs2) t =
  match tally_files fs1 t with
  | Done t' => tally_files fs2 t'
  | Thrown err => Thrown err
  | Outside n => Outside n
  end.
Proof.
  revert t. induction fs1 as [|f fs1 IH]; intros t; [done|].
  cbn [app tally_files]. destruct (count_file f.1 f.2 t); [apply IH|done..].
Qed.

Lemma visit_entry_tally entry :
  ∀ currentPath t,
    visit_entry currentPath entry t = tally_files (json_files_of currentPath entry) t.
Proof.
  induction entry as [name content|name entries IH|name] using Dirent_nested_ind;
    intros currentPath t.
  - cbn [visit_entry json_files_of dirent_name].
    destruct (endsWith ".json" name); [|done].
    cbn [tally_files fst snd]. by destruct (count_file _ content t).
  - rewrite visit_entry_dir, json_files_of_dir.
    generalize (Path.join currentPath name). intros dir. revert t.
    induction IH as [|e es He _ IHes]; intros t; [done|].
    cbn [traverseDirectory json_files]. rewrite tally_files_app, He.
    destruct (tally_files _ t); [apply IHes|done..].
  - done.
Qed.

(** The traversal is the count of the [.json] files in visiting order. *)
Lemma traverseDirectory_tally currentPath entries t :
  traverseDirectory currentPath entries t
  = tally_files (json_files currentPath entries) t.
Proof.
  revert t. induction entries as [|e es IH]; intros t; [done|].
  cbn [traverseDirectory json_files]. rewrite tally_files_app, visit_entry_tally.
  destruct (tally_files _ t); [apply IH|done..].
Qed.

(** ** Counting a list of files *)

Lemma count_file_done fullPath content t t' :
  count_file fullPath content t = Done t' ↔
  ∃ l, content = Json (JTracks l) ∧
       basename fullPath ".json" ≠ "__proto__" ∧
       t' = mkTally (totalTracks t + length l)
              (JS.Set_add_all (allTracks t) (JSON_stringify <$> l))
              (if decide (basename fullPath ".json" ∈ Object_prototype_keys)
               then showCounts t
               else <[basename fullPath ".json" :=
                        mkShowCount
                          (total (default (mkShowCount 0 0)
                                    (showCounts t !! basename fullPath ".json"))
                           + length l)
                          (distinct l)]> (showCounts t)).
Proof.
  unfold count_file, distinct, merge. destruct content as [|[l|]].
  - split; [done|]. by intros (? & ? & _).
  - case_decide as Hname.
    + split; [done|]. intros (? & _ & ? & _). done.
    + change (@nil string) with (JSON_stringify <$> @nil Track).
      rewrite Set_add_all_stringify, length_fmap. split.
      * intros [= <-]. by exists l.
      * intros (? & [= <-] & _ & ->). done.
  - split; [done|]. by intros (? & ? & _).
Qed.

Lemma tally_files_done fs t t' :
  tally_files fs t = Done t' →
  Forall countable_file fs ∧
  totalTracks t' = totalTracks t + length (tracks_in fs) ∧
  allTracks t' = JS.Set_add_all (allTracks t) (JSON_stringify <$> tracks_in fs).
Proof.
  revert t. induction fs as [|[p content] fs IH]; intros t.
  { intros [= <-]. split_and!; [done|simpl; lia|done]. }
  cbn [tally_files fst snd].
  destruct (count_file p content t) as [t1| |] eqn:Hfile; [|done..].
  apply count_file_done in Hfile as (l & -> & Hname & ->).
  intros (Hall & Htotal & Hset)%IH. split_and!.
  - constructor; [|done]. split; [by exists l|done].
  - rewrite Htotal. unfold tracks_in. cbn [mbind list_bind tracks_of snd totalTracks].
    rewrite length_app. lia.
  - rewrite Hset. unfold tracks_in. cbn [mbind list_bind tracks_of snd allTracks].
    by rewrite fmap_app, Set_add_all_app.
Qed.

Lemma tally_files_countable fs t :
  Forall countable_file fs → ∃ t', tally_files fs t = Done t'.
Proof.
  intros Hall. revert t. induction Hall as [|[p content] fs [[l Hl] Hname] _ IH]; intros t.
  { by exists t. }
  simpl in Hl, Hname. subst content. cbn [tally_files fst snd].
  unfold count_file. rewrite decide_False by done. apply IH.
Qed.

Lemma length_foldl_dedup_add_le xs store :
  length (foldl dedup_add store xs) ≤ length store + length xs.
Proof.
  revert store. induction xs as [|x xs IH]; intros store; simpl; [lia|].
  etrans; [apply IH|]. unfold dedup_add. case_decide; [lia|].
  rewrite length_app. simpl. lia.
Qed.

Lemma distinct_le l : distinct l ≤ length l.
Proof. unfold distinct, merge. apply (length_foldl_dedup_add_le l []). Qed.

Lemma distinct_NoDup l : NoDup l → distinct l = length l.
Proof.
  intros Hnd. unfold distinct, merge. simpl.
  by rewrite (foldl_dedup_add_fresh l []).
Qed.

(** X17: when the count returns, every [.json] file of the tree, at any
    depth, holds an array; the total is the number of tracks of all
    these files together, the deduplicated total the number of
    different tracks among them (compared through their
    serialization), which is at most the total. *)
Theorem count_totals directory entries c :
  countAndDeduplicateTracksInDirectory directory (Some entries) = Done c →
  Forall (λ f, is_track_array f.2) (json_files directory entries) ∧
  res_totalTracks c = length (tracks_in (json_files directory entries)) ∧
  res_deduplicatedTracks c = distinct (tracks_in (json_files directory entries)) ∧
  res_deduplicatedTracks c ≤ res_totalTracks c.
Proof.
  unfold countAndDeduplicateTracksInDirectory. rewrite traverseDirectory_tally.
  destruct (tally_files _ empty_tally) as [t| |] eqn:Hrun; [|done..].
  intros [= <-]. apply tally_files_done in Hrun as (Hall & Htotal & Hset).
  cbn [res_totalTracks res_deduplicatedTracks].
  assert (length (allTracks t) = distinct (tracks_in (json_files directory entries)))
    as Hdistinct.
  { rewrite Hset. cbn [allTracks empty_tally].
    change (@nil string) with (JSON_stringify <$> @nil Track).
    by rewrite Set_add_all_stringify, length_fmap. }
  split_and!.
  - eapply Forall_impl; [done|]. by intros f [? _].
  - by rewrite Htotal.
  - done.
  - rewrite Hdistinct, Htotal. apply distinct_le.
Qed.

Lemma count_totals_witness :
  Forall (λ f, is_track_array f.2) (json_files "nts_tracklists" Tree.nts_tracklists) ∧
  res_totalTracks Tree.counted
  = length (tracks_in (json_files "nts_tracklists" Tree.nts_tracklists)) ∧
  res_deduplicatedTracks Tree.counted
  = distinct (tracks_in (json_files "nts_tracklists" Tree.nts_tracklists)) ∧
  res_deduplicatedTracks Tree.counted ≤ res_totalTracks Tree.counted.
Proof.
  apply (count_totals "nts_tracklists" Tree.nts_tracklists Tree.counted).
  vm_compute. reflexivity.
Defined.

(** X18: on a tree in which every [.json] file holds an array of
    tracks and none is called [__proto__.json], the count returns a
    result: it goes through every folder and throws nowhere. *)
Theorem count_returns directory entries :
  Forall countable_file (json_files directory entries) →
  ∃ c, countAndDeduplicateTracksInDirectory directory (Some entries) = Done c.
Proof.
  unfold countAndDeduplicateTracksInDirectory. rewrite traverseDirectory_tally.
  intros [t ->]%(tally_files_countable _ empty_tally). eauto.
Qed.

Lemma count_returns_witness :
  ∃ c, countAndDeduplicateTracksInDirectory "nts_tracklists" (Some Tree.with_constructor)
       = Done c.
Proof.
  apply (count_returns "nts_tracklists" Tree.with_constructor).
  vm_compute. repeat constructor; eauto; discriminate.
Defined.

(** X19: only the [.json] files matter: two trees that list the same
    [.json] files, with the same contents, at the same paths and in
    the same order, are counted alike, whatever else they hold (other
    files, links, empty folders). *)
Theorem count_reads_json_files_only directory entries1 entries2 :
  json_files directory entries1 = json_files directory entries2 →
  countAndDeduplicateTracksInDirectory directory (Some entries1)
  = countAndDeduplicateTracksInDirectory directory (Some entries2).
Proof.
  intros Hsame. unfold countAndDeduplicateTracksInDirectory.
  by rewrite !traverseDirectory_tally, Hsame.
Qed.

Lemma count_reads_json_files_only_witness :
  countAndDeduplicateTracksInDirectory "nts_tracklists"
    (Some [DDir "mix" [DFile "foo_tracklist.json" (Json (JTracks Tree.foo_tracks));
                       DFile "notes.txt" Unparseable; DDir "empty" []];
           DOther "latest"])
  = countAndDeduplicateTracksInDirectory "nts_tracklists"
      (Some [DDir "mix" [DFile "foo_tracklist.json" (Json (JTracks Tree.foo_tracks))]]).
Proof.
  apply (count_reads_json_files_only "nts_tracklists").
  vm_compute. reflexivity.
Defined.


(** ** Counting by show *)

Lemma tracks_in_cons f fs : tracks_in (f :: fs) = tracks_of f.2 ++ tracks_in fs.
Proof. done. Qed.

Lemma tally_files_showCounts fs t t' name :
  name ∉ Object_prototype_keys →
  tally_files fs t = Done t' →
  showCounts t' !! name =
  match last (files_named name fs) with
  | None => showCounts t !! name
  | Some f =>
      Some (mkShowCount
              (total (default (mkShowCount 0 0) (showCounts t !! name))
               + length (tracks_in (files_named name fs)))
              (distinct (tracks_of f.2)))
  end.
Proof.
  intros Hname. revert t. induction fs as [|[p content] fs IH]; intros t; [by intros [= <-]|].
  cbn [tally_files fst snd].
  destruct (count_file p content t) as [t1| |] eqn:Hfile; [|done..].
  apply count_file_done in Hfile as (l & -> & _ & ->).
  intros ->%IH. unfold files_named. cbn [showCounts].
  destruct (decide (basename p ".json" = name)) as [Heq|Hne].
  - rewrite filter_cons_True by done. rewrite last_cons, tracks_in_cons.
    cbn [tracks_of snd]. rewrite Heq, decide_False, lookup_insert_eq by done.
    destruct (last (filter _ fs)) as [g|] eqn:Hlast.
    + simpl. rewrite length_app, Nat.add_assoc. done.
    + apply last_None in Hlast. rewrite Hlast. simpl.
      by rewrite app_nil_r.
  - rewrite filter_cons_False by done.
    case_decide; [done|]. by rewrite lookup_insert_ne.
Qed.

(** No entry is ever made under an inherited name. *)
Lemma tally_files_inherited fs t t' name :
  name ∈ Object_prototype_keys →
  tally_files fs t = Done t' →
  showCounts t' !! name = showCounts t !! name.
Proof.
  intros Hname. revert t. induction fs as [|[p content] fs IH]; intros t; [by intros [= <-]|].
  cbn [tally_files fst snd].
  destruct (count_file p content t) as [t1| |] eqn:Hfile; [|done..].
  apply count_file_done in Hfile as (l & -> & _ & ->).
  intros ->%IH. cbn [showCounts]. case_decide as Hp; [done|].
  apply lookup_insert_ne. congruence.
Qed.

(** X20: when the count returns (on a tree without [__proto__.json]),
    a show name that is not the name of a property inherited from
    [Object.prototype] has an entry in [showCounts] exactly when some
    [.json] file has that base name; the [total] of the entry is the
    number of tracks of all files of that base name, in whatever
    folder, but its [deduplicated] is the number of different tracks of
    the last such file visited alone; so it never exceeds the total.
    An inherited name ([constructor], [toString], ...) has no entry,
    whatever files are called so. *)
Theorem count_by_show directory entries c showName :
  countAndDeduplicateTracksInDirectory directory (Some entries) = Done c →
  (showName ∉ Object_prototype_keys →
   res_showCounts c !! showName
   = (λ f, mkShowCount
             (length (tracks_in (files_named showName (json_files directory entries))))
             (distinct (tracks_of f.2)))
     <$> last (files_named showName (json_files directory entries))) ∧
  (showName ∈ Object_prototype_keys → res_showCounts c !! showName = None) ∧
  ∀ sc, res_showCounts c !! showName = Some sc → deduplicated sc ≤ total sc.
Proof.
  unfold countAndDeduplicateTracksInDirectory. rewrite traverseDirectory_tally.
  destruct (tally_files _ empty_tally) as [t| |] eqn:Hrun; [|done..].
  intros [= <-]. cbn [res_showCounts].
  assert (showName ∈ Object_prototype_keys → showCounts t !! showName = None)
    as Hinherited.
  { intros Hin. by rewrite (tally_files_inherited _ _ _ showName Hin Hrun). }
  destruct (decide (showName ∈ Object_prototype_keys)) as [Hin|Hname].
  { rewrite Hinherited by done. by split_and!. }
  rewrite (tally_files_showCounts _ _ _ showName Hname Hrun).
  cbn [showCounts empty_tally]. rewrite lookup_empty. cbn [default total].
  destruct (last (files_named showName _)) as [f|] eqn:Hlast; [|done].
  split_and!; [done..|]. intros sc [= <-]. cbn [deduplicated total].
  apply last_Some in Hlast as [named ->]. unfold tracks_in.
  rewrite bind_app, length_app. cbn [mbind list_bind]. rewrite app_nil_r.
  pose proof (distinct_le (tracks_of f.2)). lia.
Qed.

Lemma count_by_show_witness :
  ("foo_tracklist" ∉ Object_prototype_keys →
   res_showCounts Tree.counted_with_constructor !! "foo_tracklist"
   = (λ f, mkShowCount
             (length (tracks_in (files_named "foo_tracklist"
                                   (json_files "nts_tracklists" Tree.with_constructor))))
             (distinct (tracks_of f.2)))
     <$> last (files_named "foo_tracklist"
                 (json_files "nts_tracklists" Tree.with_constructor))) ∧
  ("foo_tracklist" ∈ Object_prototype_keys →
   res_showCounts Tree.counted_with_constructor !! "foo_tracklist" = None) ∧
  ∀ sc, res_showCounts Tree.counted_with_constructor !! "foo_tracklist" = Some sc →
        deduplicated sc ≤ total sc.
Proof.
  apply (count_by_show "nts_tracklists" Tree.with_constructor
           Tree.counted_with_constructor "foo_tracklist").
  vm_compute. reflexivity.
Defined.

End CountFacts.

(** * The two programs together *)

Module PipelineFacts.
Import Count.

Lemma endsWith_app suffix s : endsWith suffix (s +:+ suffix) = true.
Proof.
  induction s as [|c s IH].
  - rewrite string_app_empty_l. destruct suffix; cbn [endsWith]; by rewrite decide_True.
  - rewrite string_app_cons. cbn [endsWith]. by case_decide.
Qed.

Lemma substring_app_l a b : String.substring 0 (String.length a) (a +:+ b) = a.
Proof.
  induction a as [|c a IH]; [by destruct b|].
  rewrite string_app_cons. simpl. by rewrite IH.
Qed.

Lemma drop_suffix_app suffix s : drop_suffix suffix (s +:+ suffix) = s.
Proof.
  unfold drop_suffix. rewrite string_length_app.
  replace (String.length s + String.length suffix - String.length suffix)
    with (String.length s) by lia.
  apply substring_app_l.
Qed.

Lemma fileName_split showName :
  fileName showName = (sanitizedShowName showName +:+ "_tracklist") +:+ ".json".
Proof. unfold fileName. by rewrite string_app_assoc. Qed.

Lemma not_inherited_name s : s +:+ "_tracklist" ∉ Object_prototype_keys.
Proof.
  intros Hin.
  assert (endsWith "_tracklist" (s +:+ "_tracklist") = true) as Hends
    by apply endsWith_app.
  revert Hends. generalize (s +:+ "_tracklist") Hin. intros key Hkey.
  unfold Object_prototype_keys in Hkey.
  repeat (apply elem_of_cons in Hkey as [->|Hkey]; [by vm_compute|]).
  by apply elem_of_nil in Hkey.
Qed.

Lemma last_split_join seg segs name :
  Forall plain_segment (seg :: segs) → plain_segment name →
  Path.split (Path.join (Path.join_segments (seg :: segs)) name)
  = (seg :: segs) ++ [name].
Proof.
  intros Hall Hname. rewrite join_plain by done.
  apply (split_join_segments seg (segs ++ [name])).
  apply (Forall_app _ (seg :: segs) [name]). split.
  - eapply Forall_impl; [done|]. by intros ? (_ & _ & _ & ?).
  - apply Forall_singleton. apply Hname.
Qed.

(** The name the count files a crawler file under. *)
Lemma basename_filePath showName seg segs :
  Forall plain_segment (seg :: segs) →
  basename (filePath showName (Path.join_segments (seg :: segs))) ".json"
  = sanitizedShowName showName +:+ "_tracklist".
Proof.
  intros Hall. unfold basename, filePath.
  pose proof (last_split_join seg segs (fileName showName) Hall
                (plain_fileName showName)) as Hsplit.
  rewrite decide_False.
  2: { intros Heq. rewrite Heq in Hsplit. vm_compute in Hsplit.
       destruct segs; discriminate Hsplit. }
  rewrite Hsplit, last_snoc. cbn [default id].
  rewrite fileName_split, endsWith_app, drop_suffix_app.
  rewrite bool_decide_eq_false_2; [done|].
  intros Heq. apply (f_equal String.length) in Heq.
  rewrite !string_length_app in Heq. simpl in Heq. lia.
Qed.

(** X21: what the crawler writes, the count reads: the file
    [saveTracklist] has written for a show is found by the traversal of
    its folder, filed under the sanitized show name followed by
    "_tracklist", and counted with as many different tracks as tracks,
    because the crawler writes no track twice. *)
Theorem crawler_file_is_counted showName tracks seg segs w w' :
  Forall plain_segment (seg :: segs) →
  saveTracklist showName tracks (Path.join_segments (seg :: segs)) w = Returns tt w' →
  ∃ l,
    files w' !! filePath showName (Path.join_segments (seg :: segs))
    = Some (Json (JTracks l)) ∧
    visit_entry (Path.join_segments (seg :: segs))
      (DFile (fileName showName) (Json (JTracks l))) empty_tally
    = Done (mkTally (length l) (JSON_stringify <$> l)
              {[ sanitizedShowName showName +:+ "_tracklist"
                 := mkShowCount (length l) (length l) ]}).
Proof.
  intros Hall. rewrite saveTracklist_outcome. case_decide; [done|].
  destruct (writable _ _); [|done]. intros [= <-].
  eexists. split.
  { unfold saved_world. cbn [files set_files]. by rewrite lookup_insert_eq. }
  set (l := merge _ tracks).
  assert (NoDup l) as Hnd by apply merge_dedup_union.
  cbn [visit_entry dirent_name]. rewrite fileName_split, endsWith_app.
  rewrite <- fileName_split. fold (filePath showName (Path.join_segments (seg :: segs))).
  apply CountFacts.count_file_done. exists l. rewrite basename_filePath by done.
  pose proof (not_inherited_name (sanitizedShowName showName)) as Hname.
  split_and!; [done| |].
  { intros Heq. apply Hname. rewrite Heq. set_solver. }
  rewrite decide_False by done.
  cbn [totalTracks allTracks showCounts empty_tally].
  rewrite lookup_empty. cbn [default total].
  change (@nil string) with (JSON_stringify <$> @nil Track).
  rewrite Set_add_all_stringify, CountFacts.distinct_NoDup by done.
  rewrite (foldl_dedup_add_fresh l []) by done. done.
Qed.

Lemma crawler_file_is_counted_witness :
  ∃ l,
    files (set_files
             {[ Sample.foo_json := Json (JTracks [Sample.track_BU; Sample.track_AT]) ]}
             Sample.world_older_track)
      !! filePath "Foo" (Path.join_segments ["nts_tracklists"; "mix"])
    = Some (Json (JTracks l)) ∧
    visit_entry (Path.join_segments ["nts_tracklists"; "mix"])
      (DFile (fileName "Foo") (Json (JTracks l))) empty_tally
    = Done (mkTally (length l) (JSON_stringify <$> l)
              {[ sanitizedShowName "Foo" +:+ "_tracklist"
                 := mkShowCount (length l) (length l) ]}).
Proof.
  apply (crawler_file_is_counted "Foo" [Sample.track_AT; Sample.track_BU; Sample.track_AT]
           "nts_tracklists" ["mix"] Sample.world_older_track).
  - repeat constructor; discriminate.
  - vm_compute. reflexivity.
Defined.

End PipelineFacts.
